(** * Flashcards & Smart Scheduler: the scheduling, persistence, filtering
      and scoring core of [main.py]

    The development embeds the core of the Streamlit script:

    - [load_progress], [save_progress] and the start-up globals
      (lines 61-74), with the [json.dump] and [json.load] they call;
    - [schedule_next], the simplified SM-2 update (lines 77-103);
    - the reset, mark-known and mark-unknown handlers (lines 130-135 and
      388-396);
    - the tag, week and due filters of the sidebar (lines 181-239);
    - the answer check of the quiz (lines 447-449), with the
      [difflib.SequenceMatcher] it calls.

    Python [int] is [Z]; Python [float] is an IEEE 754 binary64 value,
    modelled with the executable specification [SpecFloat] of the standard
    library at precision 53 and maximal exponent 1024, so every float
    operation below rounds as CPython does. Dictionaries are [gmap]s, the
    set of known terms is a [gset]. Exceptions are values of [pyerr]. *)

From Stdlib Require Import ZArith Floats Ascii String List Bool Lia.
From Stdlib Require Import DecimalString DecimalZ DecimalPos DecimalFacts.
From stdpp Require Import gmap strings list sorting.

Set Warnings "-inexact-float,-register-all".
Open Scope Z_scope.

(** ** Python exceptions raised by the modelled code *)

Inductive pyerr : Type :=
  | OverflowError   (* int too large for a float, float infinity to int,
                       date value out of range *)
  | ValueError      (* int() of a NaN *)
  | OSError         (* progress.json cannot be opened for writing *)
  | JSONDecodeError (* progress.json does not hold a JSON document *).

(** ** Binary64 floats *)

Module PyFloat.

Definition prec : Z := 53.
Definition emax : Z := 1024.

Definition float : Type := spec_float.

Definition add : float -> float -> float := SFadd prec emax.
Definition sub : float -> float -> float := SFsub prec emax.
Definition mul : float -> float -> float := SFmul prec emax.
Definition div : float -> float -> float := SFdiv prec emax.
Definition ltb : float -> float -> bool := SFltb.
Definition leb : float -> float -> bool := SFleb.

(** The float literals of the source, as the doubles CPython reads. *)
Definition lit_2_5 : float := Eval vm_compute in Prim2SF 2.5%float.
Definition lit_1_3 : float := Eval vm_compute in Prim2SF 1.3%float.
Definition lit_0_1 : float := Eval vm_compute in Prim2SF 0.1%float.
Definition lit_0_08 : float := Eval vm_compute in Prim2SF 0.08%float.
Definition lit_0_02 : float := Eval vm_compute in Prim2SF 0.02%float.
Definition lit_2_0 : float := Eval vm_compute in Prim2SF 2.0%float.
Definition lit_1_0 : float := Eval vm_compute in Prim2SF 1.0%float.
Definition lit_0_8 : float := Eval vm_compute in Prim2SF 0.8%float.
Definition lit_0_4 : float := Eval vm_compute in Prim2SF 0.4%float.

(** [float(n)] for a Python int, as in a mixed [int * float] product:
    the nearest double, ties to even; an int that rounds beyond the largest
    double raises OverflowError. *)
Definition of_int (n : Z) : pyerr + float :=
  match binary_normalize prec emax n 0 false with
  | S754_infinity _ => inl OverflowError
  | f => inr f
  end.

(** [int(x)]: truncation towards zero; an infinity raises OverflowError
    and a NaN raises ValueError. *)
Definition to_int (x : float) : pyerr + Z :=
  match x with
  | S754_zero _ => inr 0
  | S754_finite s m e => inr (cond_Zopp s (Z.shiftl (Zpos m) e))
  | S754_infinity _ => inl OverflowError
  | S754_nan => inl ValueError
  end.

(** The mathematical floor of a float, where it has one. For a negative
    shift [Z.shiftl] is the arithmetic right shift, which rounds towards
    minus infinity. *)
Definition floor (x : float) : option Z :=
  match x with
  | S754_zero _ => Some 0
  | S754_finite s m e => Some (Z.shiftl (cond_Zopp s (Zpos m)) e)
  | S754_infinity _ | S754_nan => None
  end.

(** The builtin [max(a, b)] on two floats: [b] replaces [a] only when
    [b > a] holds, so a NaN second argument never wins. *)
Definition max (a b : float) : float := if ltb a b then b else a.

(** Sign of a float as IEEE has it; a NaN has none. *)
Definition nonneg (x : float) : bool :=
  match x with
  | S754_zero _ => true
  | S754_finite s _ _ | S754_infinity s => negb s
  | S754_nan => false
  end.

(** The mantissa of a positive int of at most 53 bits, shifted to 53
    bits. *)
Definition align53 (p : positive) : positive :=
  match (53 - Zpos (digits2_pos p))%Z with
  | Zpos k => Pos.iter xO p k
  | _ => p
  end.

(** The second half of [binary_round_aux]: the mantissa after rounding is
    brought back to 53 bits. *)
Definition finish (s : bool) (m e : Z) : float :=
  let '(mrs, e') := shr_fexp prec emax m e loc_Exact in
  match shr_m mrs with
  | Z0 => S754_zero s
  | Zpos m' => if e' <=? emax - prec then S754_finite s m' e'
               else S754_infinity s
  | Zneg _ => S754_nan
  end.

(** The mantissa of a positive int of more than 53 bits after the shift by
    [k] bits and the rounding to nearest, ties to even. *)
Definition rounded (p k : positive) : Z :=
  let mrs := Pos.iter shr_1 (Build_shr_record (Zpos p) false false) k in
  round_nearest_even (shr_m mrs) (loc_of_shr_record mrs).

End PyFloat.

Declare Scope pyfloat_scope.
Delimit Scope pyfloat_scope with F.
Notation "x + y" := (PyFloat.add x y) : pyfloat_scope.
Notation "x - y" := (PyFloat.sub x y) : pyfloat_scope.
Notation "x * y" := (PyFloat.mul x y) : pyfloat_scope.
Notation "x / y" := (PyFloat.div x y) : pyfloat_scope.

Arguments PyFloat.add : simpl never.
Arguments PyFloat.sub : simpl never.
Arguments PyFloat.mul : simpl never.
Arguments PyFloat.div : simpl never.
Arguments PyFloat.max : simpl never.
Arguments PyFloat.of_int : simpl never.
Arguments PyFloat.to_int : simpl never.

(** ** Data model *)

(** A value of the [scheduler] dictionary. The default entry of
    [schedule_next] has no ["next_due"] key and the due filter reads that
    key with [.get("next_due", "")], hence the option. *)
Record entry : Type := Entry {
  e_interval : Z;
  e_repetitions : Z;
  e_ef : PyFloat.float;
  e_next_due : option string
}.

(** [{"interval": 0, "repetitions": 0, "ef": 2.5}] *)
Definition default_entry : entry :=
  {| e_interval := 0; e_repetitions := 0; e_ef := PyFloat.lit_2_5;
     e_next_due := None |}.

(** The dictionary read from and written to progress.json. Both keys are
    read with [.get(key, default)], so each may be missing. *)
Record progress : Type := Progress {
  pd_known_terms : option (list string);
  pd_scheduler : option (gmap string entry)
}.

(** [{"known_terms": [], "scheduler": {}}] *)
Definition empty_progress : progress :=
  {| pd_known_terms := Some []; pd_scheduler := Some ∅ |}.

(** [json.dump] and [json.load] on documents of the shape of [progress].
    [document] is what the file progress.json holds. [json_dump d] is the
    text that [json.dump(d, f)] writes to the file it is given, with the
    exception it raises when it cannot write all of [d]; the text is then
    what it wrote before it stopped. *)
Class JsonCodec : Type := {
  document : Type;
  json_dump : progress -> document * option pyerr;
  json_load : document -> pyerr + progress
}.

(** The round trip the [json] module offers: a text written in full is read
    back as the dictionary it was written from, and a text that was cut off
    is no document. *)
Class JsonRoundTrip (J : JsonCodec) : Prop := {
  json_load_dump :
    forall (d : progress) (text : document),
      json_dump d = (text, None) -> json_load text = inr d;
  json_load_cut_off :
    forall (d : progress) (text : document) (err : pyerr),
      json_dump d = (text, Some err) -> json_load text = inl JSONDecodeError
}.

(** ** Program state *)

(** The module globals of the script and the file progress.json.
    [disk = None] means that the file does not exist. [scheduler] and
    [progress_data["scheduler"]] are one dictionary object after start-up
    when the file has the key; every handler that updates one of them
    assigns the other in the same step (lines 101-102 and 132-134), which
    is what the functions below do on values. *)
Record world {J : JsonCodec} : Type := World {
  progress_data : progress;
  known_terms : gset string;
  scheduler : gmap string entry;
  disk : option document;
  disk_writable : bool
}.

(** One reading of the clock: [now_plus n] is the text of
    [(datetime.now() + timedelta(days=n)).isoformat()], or the
    OverflowError that [timedelta] and the datetime addition raise when the
    date leaves their range. *)
Definition clock : Type := Z -> pyerr + string.

Section Core.
Context {J : JsonCodec}.

Definition set_progress_data (p : progress) (w : world) : world :=
  {| progress_data := p; known_terms := known_terms w;
     scheduler := scheduler w; disk := disk w;
     disk_writable := disk_writable w |}.

Definition set_known_terms (k : gset string) (w : world) : world :=
  {| progress_data := progress_data w; known_terms := k;
     scheduler := scheduler w; disk := disk w;
     disk_writable := disk_writable w |}.

Definition set_scheduler (s : gmap string entry) (w : world) : world :=
  {| progress_data := progress_data w; known_terms := known_terms w;
     scheduler := s; disk := disk w; disk_writable := disk_writable w |}.

Definition set_disk (d : option document) (w : world) : world :=
  {| progress_data := progress_data w; known_terms := known_terms w;
     scheduler := scheduler w; disk := d;
     disk_writable := disk_writable w |}.

(** ** State and exception monad

    A statement runs in a world and either returns a value or raises; the
    world it leaves behind is kept in both cases, as mutations made
    before an exception stay in place. *)
Definition M (A : Type) : Type := world -> (pyerr + A) * world.

Definition ret {A} (a : A) : M A := fun w => (inr a, w).

Definition bind {A B} (m : M A) (k : A -> M B) : M B :=
  fun w => match m w with
           | (inr a, w') => k a w'
           | (inl err, w') => (inl err, w')
           end.

Definition raise {A} (err : pyerr) : M A := fun w => (inl err, w).

Definition lift {A} (r : pyerr + A) : M A := fun w => (r, w).

Definition gets {A} (f : world -> A) : M A := fun w => (inr (f w), w).

Definition modify (f : world -> world) : M unit := fun w => (inr tt, f w).

(** The outcome and the final world of a run. *)
Definition outcome {A} (r : (pyerr + A) * world) : pyerr + A := fst r.
Definition after {A} (r : (pyerr + A) * world) : world := snd r.

End Core.

Notation "x <- c1 ;; c2" := (bind c1 (fun x => c2))
  (at level 100, c1 at next level, right associativity).
Notation "c1 ;; c2" := (bind c1 (fun _ => c2))
  (at level 100, right associativity).

Section Program.
Context {J : JsonCodec}.

(** ** Persistence (lines 61-74) *)

Definition load_progress : M progress :=
  d <- gets disk ;;
  match d with
  | Some text => lift (json_load text)
  | None => ret empty_progress
  end.

(** [open(PROGRESS_PATH, "w")] creates or empties the file, or raises;
    [json.dump] then writes to it, and what it wrote stays in the file when
    it raises. *)
Definition save_progress (data : progress) : M unit :=
  writable <- gets disk_writable ;;
  if writable : bool then
    modify (set_disk (Some (fst (json_dump data)))) ;;
    match snd (json_dump data) with
    | Some err => raise err
    | None => ret tt
    end
  else raise OSError.

(** Lines 72-74: the three globals are bound at every run of the
    script. *)
Definition startup : M unit :=
  data <- load_progress ;;
  modify (set_progress_data data) ;;
  modify (set_known_terms (list_to_set (default [] (pd_known_terms data)))) ;;
  modify (set_scheduler (default ∅ (pd_scheduler data))).

(** ** The SM-2 update (lines 77-103) *)

Definition schedule_next (term : string) (quality : Z) (now_plus : clock)
  : M unit :=
  sched <- gets scheduler ;;
  let entry := default default_entry (sched !! term) in
  let interval := e_interval entry in
  let repetitions := e_repetitions entry in
  let ef := e_ef entry in
  updated <-
    (if quality <? 3 then
       ret (1, 0, ef)
     else
       d <- lift (PyFloat.of_int (5 - quality)) ;;
       let ef :=
         PyFloat.max PyFloat.lit_1_3
           (ef + (PyFloat.lit_0_1
                  - d * (PyFloat.lit_0_08 + d * PyFloat.lit_0_02)))%F in
       let repetitions := repetitions + 1 in
       if repetitions =? 1 then ret (1, repetitions, ef)
       else if repetitions =? 2 then ret (6, repetitions, ef)
       else
         i <- lift (PyFloat.of_int interval) ;;
         interval <- lift (PyFloat.to_int (i * ef)%F) ;;
         ret (interval, repetitions, ef)) ;;
  let '(interval, repetitions, ef) := updated in
  next_due <- lift (now_plus interval) ;;
  modify (set_scheduler
            (<[term := {| e_interval := interval;
                          e_repetitions := repetitions;
                          e_ef := ef;
                          e_next_due := Some next_due |}]> sched)) ;;
  sched <- gets scheduler ;;
  data <- gets progress_data ;;
  let data := {| pd_known_terms := pd_known_terms data;
                 pd_scheduler := Some sched |} in
  modify (set_progress_data data) ;;
  save_progress data.

(** ** The handlers that touch the progress (lines 130-135, 388-396) *)

(** "Clear All Progress" *)
Definition clear_all_progress : M unit :=
  modify (set_known_terms ∅) ;;
  modify (set_scheduler ∅) ;;
  modify (set_progress_data empty_progress) ;;
  data <- gets progress_data ;;
  save_progress data.

(** "Mark as Known": [known_terms.add(choice)], then the list of the set
    is stored and saved. *)
Definition mark_known (choice : string) : M unit :=
  known <- gets known_terms ;;
  modify (set_known_terms ({[choice]} ∪ known)) ;;
  known <- gets known_terms ;;
  data <- gets progress_data ;;
  let data := {| pd_known_terms := Some (elements known);
                 pd_scheduler := pd_scheduler data |} in
  modify (set_progress_data data) ;;
  save_progress data.

(** "Mark as Unknown": [known_terms.discard(choice)]. *)
Definition mark_unknown (choice : string) : M unit :=
  known <- gets known_terms ;;
  modify (set_known_terms (known ∖ {[choice]})) ;;
  known <- gets known_terms ;;
  data <- gets progress_data ;;
  let data := {| pd_known_terms := Some (elements known);
                 pd_scheduler := pd_scheduler data |} in
  modify (set_progress_data data) ;;
  save_progress data.

End Program.

(** ** The catalog and the sidebar filters (lines 181-239) *)

(** An element of [terms_list]. Only the keys the filters read are kept:
    ["term"] is read with [e["term"]], ["tags"] with [e.get("tags", [])]
    and ["week"] with both [e.get("week", 0)] and [e.get("week")]. *)
Record term_record : Type := TermRecord {
  term : string;
  definition : string;
  tags : option (list string);
  week : option Z
}.

(** What the week selectbox returns: ["All"] or [str(w)] for a week [w] of
    [all_weeks]; [int(str(w))] is [w], so the choice is kept as the
    integer. *)
Inductive week_choice : Type :=
  | All
  | Week (w : Z).

Section Filters.
Variable terms_list : list term_record.

(** Lines 181-186. *)
Definition all_tags : list string :=
  merge_sort (fun a b => String.leb a b)
    (elements (list_to_set (concat (map (fun e => default [] (tags e))
                                        terms_list)) : gset string)).

(** Line 218: [sorted({entry.get("week", 0) for entry in terms_list})]. *)
Definition all_weeks : list Z :=
  merge_sort Z.le
    (elements (list_to_set (map (fun e => default 0 (week e)) terms_list)
               : gset Z)).

(** Line 219. *)
Definition week_options : list week_choice := All :: map Week all_weeks.

(** [set(e.get("tags", [])) & set(selected_tags)] as a truth value. *)
Definition shares_tag (selected_tags : list string) (e : term_record)
  : bool :=
  bool_decide ((list_to_set (default [] (tags e)) : gset string)
                 ∩ list_to_set selected_tags ≠ ∅).

(** Lines 189-192. *)
Definition filtered_tags_terms (selected_tags : list string)
  : list term_record :=
  match selected_tags with
  | _ :: _ => List.filter (shares_tag selected_tags) terms_list
  | [] => terms_list
  end.

(** [e.get("week") == w]: a missing key yields [None], which equals no
    int. *)
Definition week_is (w : Z) (e : term_record) : bool :=
  match week e with
  | Some w' => w' =? w
  | None => false
  end.

(** Lines 223-227. *)
Definition week_filtered (selected_tags : list string)
    (selected_week : week_choice) : list term_record :=
  match selected_week with
  | All => filtered_tags_terms selected_tags
  | Week w => List.filter (week_is w) (filtered_tags_terms selected_tags)
  end.

(** [scheduler.get(e["term"], {}).get("next_due", "") <= now_iso] *)
Definition is_due (sched : gmap string entry) (now_iso : string)
    (e : term_record) : bool :=
  String.leb
    (match sched !! term e with
     | Some en => default EmptyString (e_next_due en)
     | None => EmptyString
     end)
    now_iso.

(** Lines 231-239. *)
Definition filtered_terms (selected_tags : list string)
    (selected_week : week_choice) (due_only : bool)
    (sched : gmap string entry) (now_iso : string) : list term_record :=
  if due_only then
    List.filter (is_due sched now_iso)
      (week_filtered selected_tags selected_week)
  else week_filtered selected_tags selected_week.

End Filters.

(** ** The answer check (lines 447-449) and [difflib.SequenceMatcher] *)

(** A Python [str] whose code points are below 256 is a [string], one
    [ascii] for each code point; the sequences that [SequenceMatcher]
    compares are the lists of these. *)
Module PyStr.

(** [str.lower()]: A-Z and the capital letters of Latin-1 move up by 32,
    every other code point below 256 is its own lower case. *)
Definition lower_char (c : ascii) : ascii :=
  let n := N_of_ascii c in
  if ((65 <=? n) && (n <=? 90) || (192 <=? n) && (n <=? 214)
      || (216 <=? n) && (n <=? 222))%N
  then ascii_of_N (n + 32) else c.

Definition lower (s : list ascii) : list ascii := map lower_char s.

(** [str.isspace()] on one code point below 256. *)
Definition isspace (c : ascii) : bool :=
  let n := N_of_ascii c in
  ((9 <=? n) && (n <=? 13) || (28 <=? n) && (n <=? 32)
   || (n =? 133) || (n =? 160))%N.

Fixpoint lstrip (s : list ascii) : list ascii :=
  match s with
  | c :: s' => if isspace c then lstrip s' else s
  | [] => []
  end.

Definition rstrip (s : list ascii) : list ascii := rev (lstrip (rev s)).

(** [str.strip()] *)
Definition strip (s : list ascii) : list ascii := rstrip (lstrip s).

(** A text of white space only. *)
Definition blank (s : list ascii) : Prop := Forall (fun c => isspace c = true) s.

End PyStr.

Module Difflib.

(** [s[i]] for an index from 0 on. *)
Definition item (s : list ascii) (i : Z) : option ascii :=
  if i <? 0 then None else s !! Z.to_nat i.

(** The first loop of [__chain_b]: every element of [b] is mapped to the
    list of its indices, in increasing order. *)
Fixpoint index_elements (b : list ascii) (i : Z) (b2j : gmap ascii (list Z))
  : gmap ascii (list Z) :=
  match b with
  | [] => b2j
  | elt :: b' =>
      index_elements b' (i + 1)
        (<[elt := default [] (b2j !! elt) ++ [i]]> b2j)
  end.

(** [__chain_b] with [isjunk = None] and [autojunk = True]: no element is
    junk, and in a [b] of 200 elements or more the elements that occur more
    than [n // 100 + 1] times are popular and lose their entry. *)
Definition chain_b (b : list ascii) : gmap ascii (list Z) :=
  let b2j := index_elements b 0 ∅ in
  let n := Z.of_nat (length b) in
  if 200 <=? n then
    let ntest := n / 100 + 1 in
    filter (fun kv : ascii * list Z => Z.of_nat (length (snd kv)) <= ntest)
      b2j
  else b2j.

(** The matcher object after [SequenceMatcher(None, a, b)]. *)
Record matcher : Type := Matcher {
  sm_a : list ascii;
  sm_b : list ascii;
  b2j : gmap ascii (list Z)
}.

Definition SequenceMatcher (a b : list ascii) : matcher :=
  {| sm_a := a; sm_b := b; b2j := chain_b b |}.

(** [self.bjunk.__contains__] for the empty junk set. *)
Definition isbjunk (c : ascii) : bool := false.

Section FindLongestMatch.
Variable sm : matcher.
Variables alo ahi blo bhi : Z.

(** The loop over [j] of one row [i], with its [continue] and [break]. *)
Fixpoint scan_row (i : Z) (j2len : gmap Z Z) (js : list Z)
    (newj2len : gmap Z Z) (besti bestj bestsize : Z)
  : gmap Z Z * (Z * Z * Z) :=
  match js with
  | [] => (newj2len, (besti, bestj, bestsize))
  | j :: js' =>
      if j <? blo then
        scan_row i j2len js' newj2len besti bestj bestsize
      else if bhi <=? j then (newj2len, (besti, bestj, bestsize))
      else
        let k := default 0 (j2len !! (j - 1)) + 1 in
        let newj2len := <[j := k]> newj2len in
        if bestsize <? k then
          scan_row i j2len js' newj2len (i - k + 1) (j - k + 1) k
        else scan_row i j2len js' newj2len besti bestj bestsize
  end.

(** The loop over [i]; [b2j.get(a[i], nothing)] is the row. *)
Definition scan_rows : Z * Z * Z :=
  snd (fold_left
         (fun (st : gmap Z Z * (Z * Z * Z)) (i : Z) =>
            let '(j2len, (besti, bestj, bestsize)) := st in
            scan_row i j2len
              (default [] (item (sm_a sm) i ≫= fun c => b2j sm !! c))
              ∅ besti bestj bestsize)
         (seqZ alo (ahi - alo))
         (∅, (alo, blo, 0))).

(** The two kinds of [while] loop that grow the match, downwards and
    upwards, over elements whose junk status is [junk]. Each turn of the
    first lowers [besti], which stays above [alo], and each turn of the
    second raises [besti + bestsize], which stays below [ahi]: the loops
    end within the number of turns the callers pass. *)
Fixpoint extend_down (turns : nat) (junk : bool) (besti bestj bestsize : Z)
  : Z * Z * Z :=
  match turns with
  | O => (besti, bestj, bestsize)
  | S turns' =>
      if (alo <? besti) && (blo <? bestj)
         && match item (sm_b sm) (bestj - 1), item (sm_a sm) (besti - 1) with
            | Some y, Some x =>
                Bool.eqb (isbjunk y) junk && bool_decide (x = y)
            | _, _ => false
            end
      then extend_down turns' junk (besti - 1) (bestj - 1) (bestsize + 1)
      else (besti, bestj, bestsize)
  end.

Fixpoint extend_up (turns : nat) (junk : bool) (besti bestj bestsize : Z)
  : Z * Z * Z :=
  match turns with
  | O => (besti, bestj, bestsize)
  | S turns' =>
      if (besti + bestsize <? ahi) && (bestj + bestsize <? bhi)
         && match item (sm_b sm) (bestj + bestsize),
                  item (sm_a sm) (besti + bestsize) with
            | Some y, Some x =>
                Bool.eqb (isbjunk y) junk && bool_decide (x = y)
            | _, _ => false
            end
      then extend_up turns' junk besti bestj (bestsize + 1)
      else (besti, bestj, bestsize)
  end.

Definition find_longest_match : Z * Z * Z :=
  let '(besti, bestj, bestsize) := scan_rows in
  let '(besti, bestj, bestsize) :=
    extend_down (Z.to_nat (besti - alo)) false besti bestj bestsize in
  let '(besti, bestj, bestsize) :=
    extend_up (Z.to_nat (ahi - (besti + bestsize))) false
      besti bestj bestsize in
  let '(besti, bestj, bestsize) :=
    extend_down (Z.to_nat (besti - alo)) true besti bestj bestsize in
  extend_up (Z.to_nat (ahi - (besti + bestsize))) true besti bestj bestsize.

End FindLongestMatch.

(** The [while queue] loop of [get_matching_blocks]. The head of [queue]
    is the end of the Python list, where [pop] and [append] work. Each
    turn takes one region off the queue and puts back at most two that lie
    within it and miss at least one element of it, so the loop ends within
    [2 * len(a) + 1] turns. *)
Fixpoint match_regions (sm : matcher) (turns : nat)
    (queue : list (Z * Z * Z * Z)) (matching_blocks : list (Z * Z * Z))
  : list (Z * Z * Z) :=
  match turns, queue with
  | S turns', (alo, ahi, blo, bhi) :: queue =>
      let '(i, j, k) := find_longest_match sm alo ahi blo bhi in
      if k =? 0 then match_regions sm turns' queue matching_blocks
      else
        let queue :=
          if (alo <? i) && (blo <? j) then (alo, i, blo, j) :: queue
          else queue in
        let queue :=
          if (i + k <? ahi) && (j + k <? bhi)
          then (i + k, ahi, j + k, bhi) :: queue
          else queue in
        match_regions sm turns' queue (matching_blocks ++ [(i, j, k)])
  | _, _ => matching_blocks
  end.

(** The order of tuples of three ints. *)
Definition triple_le (x y : Z * Z * Z) : Prop :=
  let '(i1, j1, k1) := x in
  let '(i2, j2, k2) := y in
  i1 < i2 \/ i1 = i2 /\ (j1 < j2 \/ j1 = j2 /\ k1 <= k2).

Global Instance triple_le_dec x y : Decision (triple_le x y).
Proof.
  destruct x as [[i1 j1] k1], y as [[i2 j2] k2]. unfold triple_le.
  apply _.
Defined.

(** The loop that joins adjacent blocks. *)
Fixpoint collapse (blocks : list (Z * Z * Z)) (i1 j1 k1 : Z)
    (non_adjacent : list (Z * Z * Z)) : list (Z * Z * Z) :=
  match blocks with
  | (i2, j2, k2) :: blocks' =>
      if (i1 + k1 =? i2) && (j1 + k1 =? j2) then
        collapse blocks' i1 j1 (k1 + k2) non_adjacent
      else
        collapse blocks' i2 j2 k2
          (if k1 =? 0 then non_adjacent else non_adjacent ++ [(i1, j1, k1)])
  | [] =>
      if k1 =? 0 then non_adjacent else non_adjacent ++ [(i1, j1, k1)]
  end.

Definition get_matching_blocks (sm : matcher) : list (Z * Z * Z) :=
  let la := Z.of_nat (length (sm_a sm)) in
  let lb := Z.of_nat (length (sm_b sm)) in
  let matching_blocks :=
    match_regions sm (2 * length (sm_a sm) + 1) [(0, la, 0, lb)] [] in
  let matching_blocks := merge_sort triple_le matching_blocks in
  collapse matching_blocks 0 0 0 [] ++ [(la, lb, 0)].

(** [_calculate_ratio]: [2.0 * matches / length] unless [length] is 0. *)
Definition calculate_ratio (matches length : Z) : pyerr + PyFloat.float :=
  if length =? 0 then inr PyFloat.lit_1_0
  else
    match PyFloat.of_int matches with
    | inl err => inl err
    | inr m =>
        match PyFloat.of_int length with
        | inl err => inl err
        | inr l => inr (PyFloat.lit_2_0 * m / l)%F
        end
    end.

Definition ratio (sm : matcher) : pyerr + PyFloat.float :=
  let matches :=
    foldr Z.add 0 (map (fun t : Z * Z * Z => snd t) (get_matching_blocks sm))
  in
  calculate_ratio matches
    (Z.of_nat (length (sm_a sm)) + Z.of_nat (length (sm_b sm))).

(** *** Notions for the bounds of the loops *)

(** A match [(i, j, k)] that lies within the region [a[alo:ahi]],
    [b[blo:bhi]]. *)
Definition match_within (alo ahi blo bhi : Z) (x : Z * Z * Z) : Prop :=
  let '(i, j, k) := x in
  alo <= i /\ blo <= j /\ 0 <= k /\ i + k <= ahi /\ j + k <= bhi.

(** Every length that the map of row [i] holds is that of a run which
    starts within the region. *)
Definition row_within (alo blo bhi i : Z) (j2len : gmap Z Z) : Prop :=
  forall j k, j2len !! j = Some k ->
              1 <= k /\ alo <= i - k + 1 /\ blo <= j - k + 1 /\ j < bhi.

(** The turns that the regions of a queue can still take. *)
Definition queue_weight (queue : list (Z * Z * Z * Z)) : nat :=
  foldr (fun (r : Z * Z * Z * Z) n =>
           let '(alo, ahi, _, _) := r in (2 * Z.to_nat (ahi - alo) + 1 + n)%nat)
        0%nat queue.

Definition queue_ordered (queue : list (Z * Z * Z * Z)) : Prop :=
  Forall (fun r : Z * Z * Z * Z =>
            let '(alo, ahi, blo, bhi) := r in alo <= ahi /\ blo <= bhi) queue.

(** *** Notions for the proofs about a sequence matched against itself *)

(** Indices of [c] in [b], counted from [i]. *)
Fixpoint positions (c : ascii) (b : list ascii) (i : Z) : list Z :=
  match b with
  | [] => []
  | elt :: b' =>
      (if decide (elt = c) then [i] else []) ++ positions c b' (i + 1)
  end.

(** The row of [c]: [b2j.get(c, [])]. *)
Definition row (b : list ascii) (c : ascii) : list Z :=
  default [] (chain_b b !! c).

(** An element is kept when [b2j] has a row for it. *)
Definition kept (x : list ascii) (c : ascii) : bool :=
  match row x c with [] => false | _ :: _ => true end.

(** Length of the run of equal kept elements that ends at [(i, j)]. *)
Fixpoint run (x : list ascii) (i j : nat) {struct i} : Z :=
  match x !! i, x !! j with
  | Some c, Some c' =>
      if bool_decide (c = c') && kept x c then
        1 + match i, j with
            | S i', S j' => run x i' j'
            | _, _ => 0
            end
      else 0
  | _, _ => 0
  end.

Definition runZ (x : list ascii) (i j : Z) : Z :=
  if (i <? 0) || (j <? 0) then 0 else run x (Z.to_nat i) (Z.to_nat j).

(** The value a row stores at [j], and the map a row builds. *)
Definition next_len (L : gmap Z Z) (j : Z) : Z := default 0 (L !! (j - 1)) + 1.

Definition fill (L : gmap Z Z) (l : list Z) (new : gmap Z Z) : gmap Z Z :=
  fold_left (fun m j => <[j := next_len L j]> m) l new.

(** The body of the loop over [i] in [scan_rows]. *)
Definition row_step (x : list ascii) (st : gmap Z Z * (Z * Z * Z)) (i : Z)
  : gmap Z Z * (Z * Z * Z) :=
  let '(j2len, (besti, bestj, bestsize)) := st in
  scan_row 0 (Z.of_nat (length x)) i j2len
    (default [] (item x i ≫= fun c => chain_b x !! c))
    ∅ besti bestj bestsize.

(** After the rows below [m]: [j2len] holds the runs of row [m - 1], the
    best match lies on the diagonal within the rows done, and it is at
    least as long as every run of the diagonal so far. *)
Definition rows_inv (x : list ascii) (m : Z) (st : gmap Z Z * (Z * Z * Z))
  : Prop :=
  let '(j2len, (besti, bestj, bestsize)) := st in
  (forall j, default 0 (j2len !! j) = runZ x (m - 1) j) /\
  (besti = bestj /\ 0 <= besti /\ 0 <= bestsize /\ besti + bestsize <= m) /\
  (forall t, 0 <= t < m -> runZ x t t <= bestsize).

End Difflib.

(** Lines 447-449: both texts are lowered and stripped, and the ratio of
    the answer against the definition is taken. *)
Definition score (user_answer definition : string) : pyerr + PyFloat.float :=
  let correct_def :=
    PyStr.strip (PyStr.lower (list_ascii_of_string definition)) in
  let user_ans_norm :=
    PyStr.strip (PyStr.lower (list_ascii_of_string user_answer)) in
  Difflib.ratio (Difflib.SequenceMatcher user_ans_norm correct_def).

(** What [score] compares. *)
Definition normalized (s : string) : list ascii :=
  PyStr.strip (PyStr.lower (list_ascii_of_string s)).

(** ** Notions the statements use *)

Section Notions.
Context {J : JsonCodec}.
Implicit Types (w : world) (term : string).

(** The entry [schedule_next] starts from: the stored one or the
    default. *)
Definition prior_entry w term : entry :=
  default default_entry (scheduler w !! term).

(** The success branch, as the specification words it. *)

(** The int operand of a mixed product, as a float. *)
Definition float_of (n : Z) : PyFloat.float :=
  binary_normalize PyFloat.prec PyFloat.emax n 0 false.

(** [max(1.3, ease + (0.1 - (5 - quality) * (0.08 + (5 - quality) * 0.02)))] *)
Definition spec_ease (ease : PyFloat.float) (quality : Z) : PyFloat.float :=
  PyFloat.max PyFloat.lit_1_3
    (ease + (PyFloat.lit_0_1
             - float_of (5 - quality)
               * (PyFloat.lit_0_08
                  + float_of (5 - quality) * PyFloat.lit_0_02)))%F.

(** 1 at the first repetition, 6 at the second, and from then on the
    floor of the old interval times the new ease factor. *)
Definition spec_interval (interval_old repetitions_new : Z)
    (ease_new : PyFloat.float) : option Z :=
  if repetitions_new =? 1 then Some 1
  else if repetitions_new =? 2 then Some 6
  else PyFloat.floor (float_of interval_old * ease_new)%F.

(** Every ease factor of a scheduler mapping is at least 1.3. *)
Definition ease_bounded (sched : gmap string entry) : Prop :=
  forall t en, sched !! t = Some en ->
               PyFloat.leb PyFloat.lit_1_3 (e_ef en) = true.

(** The bound on both places that hold the mapping: the global
    [scheduler] and [progress_data.get("scheduler", {})]. *)
Definition ease_invariant w : Prop :=
  ease_bounded (scheduler w) /\
  ease_bounded (default ∅ (pd_scheduler (progress_data w))).

(** A call of the scheduling engine. *)
Record call : Type := Call {
  call_term : string;
  call_quality : Z;
  call_clock : clock
}.

(** A sequence of calls; a call that raises ends the run of the script
    it was made in, and the next one goes on from the globals it left. *)
Definition run_calls (calls : list call) w : world :=
  fold_left
    (fun w c =>
       after (schedule_next (call_term c) (call_quality c) (call_clock c) w))
    calls w.

(** The same sequence with each call in a run of the script of its own:
    the globals are bound anew from the file before the call. *)
Definition rerun_calls (calls : list call) w : world :=
  fold_left
    (fun w c =>
       after ((startup ;;
               schedule_next (call_term c) (call_quality c) (call_clock c))
                w))
    calls w.

(** The bound on the scheduler mapping that the file decodes to. *)
Definition stored_bounded w : Prop :=
  forall doc data,
    disk w = Some doc -> json_load doc = inr data ->
    ease_bounded (default ∅ (pd_scheduler data)).

(** The world after lines 101-102 have put the entry [en] at [term]. *)
Definition written w term (en : entry) : world :=
  set_progress_data
    {| pd_known_terms := pd_known_terms (progress_data w);
       pd_scheduler := Some (<[term := en]> (scheduler w)) |}
    (set_scheduler (<[term := en]> (scheduler w)) w).

(** What [save_progress(p)], called in the world [w], leaves: its outcome
    and the file. A file that cannot be opened for writing keeps its content
    and the call raises OSError; one that can be opened holds what
    [json.dump] wrote, and the call raises what [json.dump] raised. *)
Definition saved w (p : progress) (result : pyerr + unit)
    (file : option document) : Prop :=
  if disk_writable w then
    file = Some (fst (json_dump p)) /\
    result = match snd (json_dump p) with
             | Some err => inl err
             | None => inr tt
             end
  else file = disk w /\ result = inl OSError.

(** The run [r] of a call in the world [w] went through lines 101-103 with
    the entry [en] for [term]: the entry is in the global [scheduler] and in
    [progress_data["scheduler"]], nothing else changed in the globals, and
    [progress_data] was handed to [save_progress]. *)
Definition commits w term (en : entry) (r : (pyerr + unit) * world) : Prop :=
  scheduler (after r) = <[term := en]> (scheduler w) /\
  progress_data (after r)
  = {| pd_known_terms := pd_known_terms (progress_data w);
       pd_scheduler := Some (<[term := en]> (scheduler w)) |} /\
  known_terms (after r) = known_terms w /\
  saved w (progress_data (after r)) (outcome r) (disk (after r)).

(** [progress_data.get("scheduler", {})] and the global [scheduler] hold the
    same mapping, as lines 72-74 leave them. *)
Definition coherent w : Prop :=
  default ∅ (pd_scheduler (progress_data w)) = scheduler w.

(** The globals are what start-up would bind from the file as it is. *)
Definition in_sync w : Prop :=
  (exists doc, disk w = Some doc /\ json_load doc = inr (progress_data w)) /\
  coherent w /\
  known_terms w = list_to_set (default [] (pd_known_terms (progress_data w))).

End Notions.

(** ** The [json] module: [json.dump] and [json.load] on text

    [json.dump(data, f)] with its default arguments writes the chunks of
    [JSONEncoder.iterencode] to the file one after the other, and
    [json.load(f)] is [JSONDecoder.decode] on the text of the file. A [str]
    is a list of code points below 256, as elsewhere in this development;
    with [ensure_ascii] the text written is ASCII. *)

Module Json.

(** What a JSON text denotes in Python. *)
Inductive value : Type :=
  | Null
  | Bool (b : bool)
  | Int (n : Z)
  | Float (x : PyFloat.float)
  | Str (s : list ascii)
  | Array (items : list value)
  | Object (members : list (list ascii * value)).

Definition text : Type := list ascii.

Definition lit (s : string) : text := list_ascii_of_string s.

Definition quote : ascii := ascii_of_N 34.
Definition backslash : ascii := ascii_of_N 92.

(** *** Strings: [py_encode_basestring_ascii] and [scanstring] *)




Definition hex_value (c : ascii) : option N :=
  let n := N_of_ascii c in
  if (48 <=? n)%N && (n <=? 57)%N then Some (n - 48)%N
  else if (97 <=? n)%N && (n <=? 102)%N then Some (n - 87)%N
  else if (65 <=? n)%N && (n <=? 70)%N then Some (n - 55)%N
  else None.

(** [BACKSLASH] *)
Definition unescape (c : ascii) : option ascii :=
  let n := N_of_ascii c in
  if (n =? 34)%N then Some quote
  else if (n =? 92)%N then Some backslash
  else if (n =? 47)%N then Some "/"%char
  else if (n =? 98)%N then Some (ascii_of_N 8)
  else if (n =? 102)%N then Some (ascii_of_N 12)
  else if (n =? 110)%N then Some (ascii_of_N 10)
  else if (n =? 114)%N then Some (ascii_of_N 13)
  else if (n =? 116)%N then Some (ascii_of_N 9)
  else None.

Definition cons_char (c : ascii) (r : pyerr + (list ascii * text))
  : pyerr + (list ascii * text) :=
  match r with
  | inr (s, rest) => inr (c :: s, rest)
  | inl err => inl err
  end.

(** [scanstring(s, end)] in strict mode, from the character after the
    opening quote: the string and the text after the closing quote. An
    escape [\uXXXX] of a code point from 256 on has no place in the model
    of [str] and is refused. *)
Fixpoint scanstring (s : text) : pyerr + (list ascii * text) :=
  match s with
  | [] => inl JSONDecodeError
  | c :: s1 =>
      if Ascii.eqb c quote then inr ([], s1)
      else if Ascii.eqb c backslash then
        match s1 with
        | [] => inl JSONDecodeError
        | e :: s2 =>
            if Ascii.eqb e "u"%char then
              match s2 with
              | h1 :: h2 :: h3 :: h4 :: s3 =>
                  match hex_value h1, hex_value h2, hex_value h3,
                        hex_value h4 with
                  | Some a, Some b, Some c', Some d =>
                      let n := (((a * 16 + b) * 16 + c') * 16 + d)%N in
                      if (n <? 256)%N
                      then cons_char (ascii_of_N n) (scanstring s3)
                      else inl JSONDecodeError
                  | _, _, _, _ => inl JSONDecodeError
                  end
              | _ => inl JSONDecodeError
              end
            else
              match unescape e with
              | Some c' => cons_char c' (scanstring s2)
              | None => inl JSONDecodeError
              end
        end
      else if (N_of_ascii c <? 32)%N then inl JSONDecodeError
      else cons_char c (scanstring s1)
  end.

(** *** Numbers *)

Definition is_digit (c : ascii) : bool :=
  (48 <=? N_of_ascii c)%N && (N_of_ascii c <=? 57)%N.

Definition digit_of (c : ascii) : Decimal.uint -> Decimal.uint :=
  match N_of_ascii c with
  | 48%N => Decimal.D0
  | 49%N => Decimal.D1
  | 50%N => Decimal.D2
  | 51%N => Decimal.D3
  | 52%N => Decimal.D4
  | 53%N => Decimal.D5
  | 54%N => Decimal.D6
  | 55%N => Decimal.D7
  | 56%N => Decimal.D8
  | _ => Decimal.D9
  end.

(** The digits at the head of a text, most significant first. *)
Fixpoint lex_digits (s : text) : Decimal.uint * text :=
  match s with
  | c :: s' =>
      if is_digit c then
        let '(u, r) := lex_digits s' in (digit_of c u, r)
      else (Decimal.Nil, s)
  | [] => (Decimal.Nil, [])
  end.

Fixpoint text_of_uint (u : Decimal.uint) : text :=
  match u with
  | Decimal.Nil => []
  | Decimal.D0 u => "0"%char :: text_of_uint u
  | Decimal.D1 u => "1"%char :: text_of_uint u
  | Decimal.D2 u => "2"%char :: text_of_uint u
  | Decimal.D3 u => "3"%char :: text_of_uint u
  | Decimal.D4 u => "4"%char :: text_of_uint u
  | Decimal.D5 u => "5"%char :: text_of_uint u
  | Decimal.D6 u => "6"%char :: text_of_uint u
  | Decimal.D7 u => "7"%char :: text_of_uint u
  | Decimal.D8 u => "8"%char :: text_of_uint u
  | Decimal.D9 u => "9"%char :: text_of_uint u
  end.

(** The groups of [NUMBER_RE]: an integer part, which is an optional minus
    sign and either a single 0 or digits that do not start with 0; an
    optional fraction, a point and digits; an optional exponent, the letter
    e in either case, an optional sign and digits. *)
Record number_token : Type := NumberToken {
  nt_negative : bool;
  nt_integer : Decimal.uint;
  nt_frac : option Decimal.uint;
  nt_exp : option (bool * Decimal.uint)
}.

(** The fraction: a point and at least one digit. *)
Definition match_frac (s : text) : option Decimal.uint * text :=
  match s with
  | c :: s' =>
      if Ascii.eqb c "."%char then
        match lex_digits s' with
        | (Decimal.Nil, _) => (None, s)
        | (f, r) => (Some f, r)
        end
      else (None, s)
  | [] => (None, s)
  end.

(** The exponent: e or E, an optional sign and at least one digit. *)
Definition match_exp (s : text) : option (bool * Decimal.uint) * text :=
  match s with
  | c :: s' =>
      if Ascii.eqb c "e"%char || Ascii.eqb c "E"%char then
        let '(negative, s'') :=
          match s' with
          | sg :: t =>
              if Ascii.eqb sg "-"%char then (true, t)
              else if Ascii.eqb sg "+"%char then (false, t)
              else (false, s')
          | [] => (false, s')
          end in
        match lex_digits s'' with
        | (Decimal.Nil, _) => (None, s)
        | (x, r) => (Some (negative, x), r)
        end
      else (None, s)
  | [] => (None, s)
  end.

(** The number after its sign. *)
Definition match_unsigned (negative : bool) (s : text)
  : option (number_token * text) :=
  let integer :=
    match s with
    | c :: s' =>
        if Ascii.eqb c "0"%char then Some (Decimal.D0 Decimal.Nil, s')
        else if is_digit c then Some (lex_digits s)
        else None
    | [] => None
    end in
  match integer with
  | Some (i, r) =>
      let '(frac, r1) := match_frac r in
      let '(exp, r2) := match_exp r1 in
      Some ({| nt_negative := negative; nt_integer := i;
               nt_frac := frac; nt_exp := exp |}, r2)
  | None => None
  end.

Definition match_number (s : text) : option (number_token * text) :=
  match s with
  | c :: s' =>
      if Ascii.eqb c "-"%char then match_unsigned true s'
      else match_unsigned false s
  | [] => None
  end.

(** [sys.int_info.default_max_str_digits]: [str(n)] and [int(s)] raise
    ValueError beyond that many digits. *)
Definition max_str_digits : nat := 4300.

(** [float(s)] on a decimal literal with the digits [m] and the exponent
    [e]: the double nearest to [m * 10 ** e], ties to even. *)
Definition float_of_decimal (negative : bool) (m : Z) (e : Z)
  : PyFloat.float :=
  match m with
  | Zpos p =>
      if 0 <=? e then
        binary_normalize PyFloat.prec PyFloat.emax
          (cond_Zopp negative (Zpos p * 10 ^ e)) 0 negative
      else
        SFdiv PyFloat.prec PyFloat.emax
          (S754_finite negative p 0)
          (S754_finite false (Z.to_pos (10 ^ (- e))) 0)
  | _ => S754_zero negative
  end.

Definition exp_value (x : option (bool * Decimal.uint)) : Z :=
  match x with
  | Some (negative, u) => cond_Zopp negative (Z.of_uint u)
  | None => 0
  end.

(** A literal with a fraction or an exponent is a float, another one an
    int. *)
Definition number_value (t : number_token) : pyerr + value :=
  match nt_frac t, nt_exp t with
  | None, None =>
      if (max_str_digits <? Decimal.nb_digits (nt_integer t))%nat
      then inl ValueError
      else inr (Int (cond_Zopp (nt_negative t) (Z.of_uint (nt_integer t))))
  | frac, exp =>
      let f := default Decimal.Nil frac in
      inr (Float (float_of_decimal (nt_negative t)
                    (Z.of_uint (Decimal.app (nt_integer t) f))
                    (exp_value exp - Z.of_nat (Decimal.nb_digits f))))
  end.

(** [int.__repr__]: the decimal digits, or ValueError for more than 4300
    of them. *)
Definition int_text (n : Z) : pyerr + text :=
  match Z.to_int n with
  | Decimal.Pos u =>
      if (max_str_digits <? Decimal.nb_digits u)%nat then inl ValueError
      else inr (text_of_uint u)
  | Decimal.Neg u =>
      if (max_str_digits <? Decimal.nb_digits u)%nat then inl ValueError
      else inr ("-"%char :: text_of_uint u)
  end.

(** *** [float.__repr__]: the shortest digits that read back *)

(** The same float, bit for bit. *)
Definition same_float (x y : PyFloat.float) : bool :=
  match x, y with
  | S754_zero s, S754_zero s' => Bool.eqb s s'
  | S754_infinity s, S754_infinity s' => Bool.eqb s s'
  | S754_nan, S754_nan => true
  | S754_finite s m e, S754_finite s' m' e' =>
      Bool.eqb s s' && (m =? m')%positive && (e =? e')
  | _, _ => false
  end.

(** [m * 2 ** e / 10 ** k] as a fraction of two positive ints. *)
Definition scaled (m : positive) (e k : Z) : Z * Z :=
  (Zpos m * 2 ^ Z.max e 0 * 10 ^ Z.max (- k) 0,
   2 ^ Z.max (- e) 0 * 10 ^ Z.max k 0).

(** The exponent of the leading decimal digit of [m * 2 ** e], for the
    magnitudes of a double. *)
Definition decimal_exponent (m : positive) (e : Z) : Z :=
  let '(num, den) := scaled m e (-324) in
  Z.of_nat (Decimal.nb_digits (N.to_uint (Z.to_N (num / den)))) - 1 - 324.

(** The two multiples of [10 ** k] around [m * 2 ** e], the nearer one
    first. *)
Definition candidates (m : positive) (e k : Z) : Z * Z :=
  let '(num, den) := scaled m e k in
  let q := num / den in
  let r := num mod den in
  if (2 * r <? den) || ((2 * r =? den) && Z.even q) then (q, q + 1)
  else (q + 1, q).

Definition zeros (n : Z) : text := repeat "0"%char (Z.to_nat n).

(** The text of [repr] for the digits [n] with the last one at [10 ** k]:
    [format_float_short] for the code ['r'], which switches to the
    exponent form when the decimal point is more than 16 places or less
    than -3 places after the first digit, and adds [.0] to a text without a
    point. *)
Definition format_float (negative : bool) (n : Z) (k : Z) : text :=
  let '(u, stripped) := Decimal.nztail (N.to_uint (Z.to_N n)) in
  let digits := text_of_uint u in
  let len := Z.of_nat (length digits) in
  let decpt := len + k + Z.of_nat stripped in
  (if negative then ["-"%char] else []) ++
  (if (-4 <? decpt) && (decpt <=? 16) then
     if decpt <=? 0 then lit "0." ++ zeros (- decpt) ++ digits
     else if decpt <? len then
       take (Z.to_nat decpt) digits ++ "."%char :: drop (Z.to_nat decpt) digits
     else digits ++ zeros (decpt - len) ++ lit ".0"
   else
     let x := decpt - 1 in
     take 1 digits
     ++ (if 1 <? len then "."%char :: drop 1 digits else [])
     ++ "e"%char :: (if x <? 0 then "-"%char else "+"%char)
     :: (if Z.abs x <? 10 then ["0"%char] else [])
     ++ text_of_uint (N.to_uint (Z.to_N (Z.abs x)))).

(** [float(s)] on a text that is one number literal. *)
Definition float_of_text (s : text) : option PyFloat.float :=
  match match_number s with
  | Some (t, []) =>
      match number_value t with
      | inr (Float y) => Some y
      | _ => None
      end
  | _ => None
  end.

Definition reads_back (x : PyFloat.float) (negative : bool) (n k : Z)
  : bool :=
  match float_of_text (format_float negative n k) with
  | Some y => same_float x y
  | None => false
  end.

(** From one digit on, the first number of digits at which a neighbour of
    the float reads back as the float; 17 digits always do. *)
Fixpoint shortest (more : nat) (x : PyFloat.float) (negative : bool)
    (m : positive) (e k : Z) : Z * Z :=
  let '(near, far) := candidates m e k in
  if reads_back x negative near k then (near, k)
  else if reads_back x negative far k then (far, k)
  else match more with
       | O => (near, k)
       | S more' => shortest more' x negative m e (k - 1)
       end.

Definition float_text (x : PyFloat.float) : text :=
  match x with
  | S754_nan => lit "NaN"
  | S754_infinity false => lit "Infinity"
  | S754_infinity true => lit "-Infinity"
  | S754_zero false => lit "0.0"
  | S754_zero true => lit "-0.0"
  | S754_finite negative m e =>
      let '(n, k) :=
        shortest 16 x negative m e (decimal_exponent m e) in
      format_float negative n k
  end.

(** *** [JSONEncoder.iterencode]: the chunks written, and the exception
    that ends them *)







(** *** [JSONDecoder.decode] *)



(** The text after a prefix. *)
Fixpoint after_prefix (p s : text) : option text :=
  match p, s with
  | [], _ => Some s
  | a :: p', b :: s' => if Ascii.eqb a b then after_prefix p' s' else None
  | _ :: _, [] => None
  end.

Definition with_rest {A} (r : pyerr + A) (rest : text) : pyerr + (A * text) :=
  match r with
  | inr a => inr (a, rest)
  | inl err => inl err
  end.


(** [scan_once] for a value that is neither an array nor an object. *)
Definition scan_atom (s : text) : pyerr + (value * text) :=
  match s with
  | [] => inl JSONDecodeError
  | c :: s' =>
      if Ascii.eqb c quote then
        match scanstring s' with
        | inr (str, rest) => inr (Str str, rest)
        | inl err => inl err
        end
      else
        match after_prefix (lit "null") s, after_prefix (lit "true") s,
              after_prefix (lit "false") s with
        | Some rest, _, _ => inr (Null, rest)
        | _, Some rest, _ => inr (Bool true, rest)
        | _, _, Some rest => inr (Bool false, rest)
        | _, _, _ =>
            match match_number s with
            | Some (t, rest) => with_rest (number_value t) rest
            | None =>
                match after_prefix (lit "NaN") s,
                      after_prefix (lit "Infinity") s,
                      after_prefix (lit "-Infinity") s with
                | Some rest, _, _ => inr (Float S754_nan, rest)
                | _, Some rest, _ => inr (Float (S754_infinity false), rest)
                | _, _, Some rest => inr (Float (S754_infinity true), rest)
                | _, _, _ => inl JSONDecodeError
                end
            end
        end
  end.



(** *** Notions for the round trip *)


(** The text of the float is read back as the same float. *)
Definition float_round_trips (x : PyFloat.float) : bool :=
  match scan_atom (float_text x) with
  | inr (Float y, []) => same_float x y
  | _ => false
  end.

(** Every int of the value has at most 4300 digits, and every float is
    read back from its text. *)
Fixpoint writable (v : value) : bool :=
  match v with
  | Int n => match int_text n with inr _ => true | inl _ => false end
  | Float x => float_round_trips x
  | Array items => forallb writable items
  | Object members => forallb (fun kv => writable (snd kv)) members
  | _ => true
  end.

(** The values of a value, itself included. *)
Fixpoint size (v : value) : nat :=
  match v with
  | Array items => S (list_sum (map (fun x => S (size x)) items))
  | Object members =>
      S (list_sum (map (fun kv => S (size (snd kv))) members))
  | _ => 1%nat
  end.






(** *** The dictionary of progress.json as a value, and back *)









End Json.





(** ** A clock and a codec to run the model on *)

Module Calendar.

(** Days since 1970-01-01 of a date of the proleptic Gregorian calendar,
    which [datetime] uses, and back. *)
Definition days_from_civil (y m d : Z) : Z :=
  let y := if m <=? 2 then y - 1 else y in
  let era := y / 400 in
  let yoe := y - era * 400 in
  let doy := (153 * (if 2 <? m then m - 3 else m + 9) + 2) / 5 + d - 1 in
  let doe := yoe * 365 + yoe / 4 - yoe / 100 + doy in
  era * 146097 + doe - 719468.

Definition civil_from_days (z : Z) : Z * Z * Z :=
  let z := z + 719468 in
  let era := z / 146097 in
  let doe := z - era * 146097 in
  let yoe := (doe - doe / 1460 + doe / 36524 - doe / 146096) / 365 in
  let doy := doe - (365 * yoe + yoe / 4 - yoe / 100) in
  let mp := (5 * doy + 2) / 153 in
  let d := doy - (153 * mp + 2) / 5 + 1 in
  let m := if mp <? 10 then mp + 3 else mp - 9 in
  (yoe + era * 400 + (if m <=? 2 then 1 else 0), m, d).

Definition digit (n : Z) : ascii := ascii_of_N (48 + Z.to_N (n mod 10)).

Definition pad2 (n : Z) : string :=
  String (digit (n / 10)) (String (digit n) EmptyString).

Definition pad4 (n : Z) : string :=
  String (digit (n / 1000)) (String (digit (n / 100)) (pad2 n)).

(** [isoformat()] of a datetime, the time of day given as its text. *)
Definition isoformat (y m d : Z) (time : string) : string :=
  String.append (pad4 y)
    (String "-" (String.append (pad2 m)
       (String "-" (String.append (pad2 d) time)))).

(** The clock of a run that starts on the day [y]-[m]-[d]: [timedelta]
    takes at most 999999999 days and the sum must stay within the years 1
    to 9999. *)
Definition now_plus (y m d : Z) (time : string) : clock :=
  fun n =>
    if Z.abs n <=? 999999999 then
      let '(y', m', d') := civil_from_days (days_from_civil y m d + n) in
      if (1 <=? y') && (y' <=? 9999) then inr (isoformat y' m' d' time)
      else inl OverflowError
    else inl OverflowError.

End Calendar.

(** A clock read on 1 March 2024. *)
Definition clock_2024 : clock :=
  Calendar.now_plus 2024 3 1 "T09:30:00.250000".

(** The codec that keeps the document as the dictionary it encodes. *)
Definition logical_codec : JsonCodec :=
  {| document := progress;
     json_dump := fun d => (d, None);
     json_load := fun d => inr d |}.

(** The state of a first run: no file, empty globals. *)
Definition fresh_world : @world logical_codec :=
  {| progress_data := empty_progress;
     known_terms := ∅;
     scheduler := ∅;
     disk := None;
     disk_writable := true |}.

(** The state after one perfect review of "Y" on that first run. *)
Definition reviewed_world : @world logical_codec :=
  after (schedule_next "Y" 5 clock_2024 fresh_world).

(** The state after "X" was reviewed too and marked as known: two entries
    and one known term. *)
Definition studied_world : @world logical_codec :=
  after (mark_known "X"
           (after (schedule_next "X" 4 clock_2024 reviewed_world))).

(** The state after thirteen perfect reviews of "X" in a row on the first
    run. *)
Definition drilled_world : @world logical_codec :=
  run_calls (repeat (Call "X" 5 clock_2024) 13) fresh_world.



(** A catalog with one term that has a tag and no ["week"] key, and one
    that has both. *)
Definition externality : term_record :=
  {| term := "Externality";
     definition := "A cost or benefit borne by a third party";
     tags := Some ("econ" :: nil)%string;
     week := None |}.

Definition federalism : term_record :=
  {| term := "Federalism";
     definition := "Division of power between levels of government";
     tags := Some ("gov" :: "econ" :: nil)%string;
     week := Some 3 |}.

Definition small_catalog : list term_record := [externality; federalism].

(** * Properties *)

(** ** Float facts used below *)

Module PyFloatFacts.
Import PyFloat.

(** Rounding keeps the sign it is given. *)
Lemma binary_round_aux_sign s m e l :
  match binary_round_aux prec emax s m e l with
  | S754_zero s' | S754_infinity s' | S754_finite s' _ _ => s' = s
  | S754_nan => True
  end.
Proof.
  unfold binary_round_aux.
  destruct (shr_fexp prec emax m e l) as [mrs' e'].
  destruct (shr_fexp prec emax _ e' loc_Exact) as [mrs'' e''].
  destruct (shr_m mrs''); [reflexivity | | exact I].
  destruct (e'' <=? emax - prec); reflexivity.
Qed.

Lemma binary_round_sign s m e :
  match binary_round prec emax s m e with
  | S754_zero s' | S754_infinity s' | S754_finite s' _ _ => s' = s
  | S754_nan => True
  end.
Proof.
  unfold binary_round.
  destruct (shl_align m e _) as [mz ez].
  apply binary_round_aux_sign.
Qed.

(** Shifting a mantissa that is not negative to the right leaves it so,
    and so a rounding of such a mantissa is never a NaN. *)
Lemma shr_1_nonneg mrs : 0 <= shr_m mrs -> 0 <= shr_m (shr_1 mrs).
Proof.
  destruct mrs as [[|[p|p|]|[p|p|]] r s]; simpl; lia.
Qed.

Lemma iter_pos_shr_1_nonneg p :
  forall mrs, 0 <= shr_m mrs -> 0 <= shr_m (SpecFloat.iter_pos shr_1 p mrs).
Proof.
  induction p as [p IH|p IH|]; intros mrs H; simpl.
  - apply IH, IH, shr_1_nonneg, H.
  - apply IH, IH, H.
  - apply shr_1_nonneg, H.
Qed.

Lemma shr_fexp_nonneg m e l :
  0 <= m -> 0 <= shr_m (fst (shr_fexp prec emax m e l)).
Proof.
  intros Hm. unfold shr_fexp, shr.
  assert (H0 : 0 <= shr_m (shr_record_of_loc m l))
    by (destruct l as [|[| |]]; exact Hm).
  destruct (fexp prec emax (Zdigits2 m + e) - e); simpl; auto.
  now apply iter_pos_shr_1_nonneg.
Qed.

Lemma round_nearest_even_nonneg m l :
  0 <= m -> 0 <= round_nearest_even m l.
Proof.
  intros Hm. destruct l as [|[| |]]; simpl; try lia.
  destruct (Z.even m); lia.
Qed.

Lemma binary_round_aux_not_nan s m e l :
  0 <= m -> binary_round_aux prec emax s m e l <> S754_nan.
Proof.
  intros Hm. unfold binary_round_aux.
  pose proof (shr_fexp_nonneg m e l Hm) as H1.
  destruct (shr_fexp prec emax m e l) as [mrs' e']. simpl in H1.
  pose proof (shr_fexp_nonneg _ e' loc_Exact
                (round_nearest_even_nonneg _ (loc_of_shr_record mrs') H1))
    as H2.
  destruct (shr_fexp prec emax _ e' loc_Exact) as [mrs'' e''].
  simpl in H2.
  destruct (shr_m mrs''); [discriminate | | lia].
  destruct (e'' <=? emax - prec); discriminate.
Qed.

Lemma binary_round_not_nan s m e :
  binary_round prec emax s m e <> S754_nan.
Proof.
  unfold binary_round.
  destruct (shl_align m e _) as [mz ez].
  apply binary_round_aux_not_nan. lia.
Qed.

(** [float(n)] is a number, and it is not negative when [n] is not. *)
Lemma of_int_not_nan n x : of_int n = inr x -> x <> S754_nan.
Proof.
  unfold of_int, binary_normalize.
  destruct n as [|p|p].
  - intros [= <-]. discriminate.
  - pose proof (binary_round_not_nan false p 0).
    destruct (binary_round prec emax false p 0);
      intros [= <-]; congruence.
  - pose proof (binary_round_not_nan true p 0).
    destruct (binary_round prec emax true p 0);
      intros [= <-]; congruence.
Qed.

Lemma of_int_nonneg n x : 0 <= n -> of_int n = inr x -> nonneg x = true.
Proof.
  intros Hn Hx. pose proof (of_int_not_nan n x Hx) as Hnan.
  revert Hx. unfold of_int, binary_normalize.
  destruct n as [|p|p]; [| | lia].
  - intros [= <-]. reflexivity.
  - pose proof (binary_round_sign false p 0) as Hs.
    destruct (binary_round prec emax false p 0) as [s|s| |s m e];
      intros [= <-]; simpl in *; subst; try reflexivity.
    now elim Hnan.
Qed.

(** A product of two floats that are not negative is not negative,
    unless it is a NaN. *)
Lemma mul_nonneg x y :
  nonneg x = true -> nonneg y = true ->
  mul x y = S754_nan \/ nonneg (mul x y) = true.
Proof.
  destruct x as [sx|sx| |sx mx ex], y as [sy|sy| |sy my ey];
    simpl; intros Hx Hy; try discriminate;
    try (apply negb_true_iff in Hx); try (apply negb_true_iff in Hy);
    subst; auto.
  unfold mul, SFmul.
  pose proof (binary_round_aux_sign (xorb false false)
                (Zpos (mx * my)) (ex + ey) loc_Exact) as Hs.
  destruct (binary_round_aux _ _ _ _ _ _) as [s|s| |s m e];
    simpl in *; subst; auto.
Qed.

(** On a float that is not negative, [int()] is the floor. *)
Lemma to_int_floor x n :
  nonneg x = true -> floor x = Some n -> to_int x = inr n.
Proof.
  destruct x as [s|s| |s m e]; simpl; try discriminate.
  - intros _ [= <-]. reflexivity.
  - intros Hs [= <-]. apply negb_true_iff in Hs. subst. reflexivity.
Qed.

(** [x > a] gives [a <= x]. *)
Lemma ltb_leb a x : ltb a x = true -> leb a x = true.
Proof.
  unfold ltb, leb, SFltb, SFleb.
  destruct (SFcompare a x) as [[| |]|]; congruence.
Qed.

(** The result of [max(a, x)] is at least [a] when [a] is a number. *)
Lemma max_lower_bound a x : leb a a = true -> leb a (max a x) = true.
Proof.
  intros Ha. unfold max. destruct (ltb a x) eqn:E; [|exact Ha].
  now apply ltb_leb.
Qed.

(** A float that is at least 1.3 is not negative. *)
Lemma leb_1_3_nonneg x : leb lit_1_3 x = true -> nonneg x = true.
Proof.
  destruct x as [s|s| |s m e]; simpl; try discriminate.
  - destruct s; [discriminate | reflexivity].
  - destruct s; [discriminate | reflexivity].
Qed.

End PyFloatFacts.

(** ** The ratio of a count against its double *)

Module PyFloatExact.
Import PyFloat.

Lemma digits2_pos_size p : digits2_pos p = Pos.size p.
Proof. induction p; simpl; congruence. Qed.

(** A mantissa of exactly 53 bits with an exponent in range is not
    changed by rounding. *)
Lemma round_canonical s m e :
  Zpos (digits2_pos m) = 53 -> -1074 <= e <= 971 ->
  binary_round_aux prec emax s (Zpos m) e loc_Exact = S754_finite s m e.
Proof.
  intros Hd He.
  assert (Hf : fexp prec emax (Zpos (digits2_pos m) + e) - e = 0).
  { unfold fexp, emin, prec, emax. rewrite Hd. lia. }
  unfold binary_round_aux, shr_fexp. simpl Zdigits2. rewrite Hf. simpl.
  rewrite Hf. simpl.
  destruct (e <=? emax - prec) eqn:E; [reflexivity|].
  apply Z.leb_gt in E. unfold emax, prec in E. lia.
Qed.

Lemma div_self s m e :
  div (S754_finite s m e) (S754_finite s m e) = lit_1_0.
Proof.
  unfold div, SFdiv, SFdiv_core_binary.
  replace (Zdigits2 (Zpos m) + e - (Zdigits2 (Zpos m) + e)) with 0 by lia.
  replace (e - e) with 0 by lia.
  change (Z.min (fexp prec emax 0) 0) with (-53).
  change (0 - -53) with 53.
  cbv iota beta.
  assert (H : Z.div_eucl (Z.shiftl (Zpos m) 53) (Zpos m) = (2 ^ 53, 0)).
  { rewrite Z.shiftl_mul_pow2 by lia.
    rewrite Z.mul_comm.
    pose proof (Z.div_mul (2 ^ 53) (Zpos m) ltac:(lia)) as H1.
    pose proof (Z.mod_mul (2 ^ 53) (Zpos m) ltac:(lia)) as H2.
    unfold Z.div, Z.modulo in H1, H2.
    destruct (Z.div_eucl (2 ^ 53 * Zpos m) (Zpos m)) as [q r].
    simpl in H1, H2. now subst. }
  rewrite H.
  assert (Hl : new_location (Zpos m) 0 = loc_Exact).
  { unfold new_location. destruct (Z.even (Zpos m)); reflexivity. }
  rewrite Hl. destruct s; reflexivity.
Qed.

Lemma round_shift s M e k m :
  Zpos (digits2_pos M) = 53 + Zpos k ->
  SpecFloat.iter_pos shr_1 k (Build_shr_record (Zpos M) false false)
  = Build_shr_record (Zpos m) false false ->
  Zpos (digits2_pos m) = 53 ->
  -1074 <= e + Zpos k <= 971 ->
  binary_round_aux prec emax s (Zpos M) e loc_Exact
  = S754_finite s m (e + Zpos k).
Proof.
  intros HdM Hit Hdm He.
  assert (Hf : fexp prec emax (Zpos (digits2_pos M) + e) - e = Zpos k).
  { unfold fexp, emin, prec, emax. rewrite HdM. lia. }
  assert (Hf2 : fexp prec emax (Zpos (digits2_pos m) + (e + Zpos k))
                - (e + Zpos k) = 0).
  { unfold fexp, emin, prec, emax. rewrite Hdm. lia. }
  unfold binary_round_aux, shr_fexp.
  change (Zdigits2 (Zpos M)) with (Zpos (digits2_pos M)).
  rewrite Hf. unfold shr at 1.
  change (shr_record_of_loc (Zpos M) loc_Exact)
    with (Build_shr_record (Zpos M) false false).
  cbv beta iota. rewrite Hit.
  change (shr_m {| shr_m := Zpos m; shr_r := false; shr_s := false |})
    with (Zpos m).
  change (loc_of_shr_record
            {| shr_m := Zpos m; shr_r := false; shr_s := false |})
    with loc_Exact.
  change (round_nearest_even (Zpos m) loc_Exact) with (Zpos m).
  change (Zdigits2 (Zpos m)) with (Zpos (digits2_pos m)).
  rewrite Hf2. unfold shr, shr_record_of_loc. cbv beta iota.
  change (shr_m {| shr_m := Zpos m; shr_r := false; shr_s := false |})
    with (Zpos m). cbv beta iota.
  destruct (e + Zpos k <=? emax - prec) eqn:E; [reflexivity|].
  apply Z.leb_gt in E. unfold emax, prec in E. lia.
Qed.

Lemma mul_2_canonical m e :
  Zpos (digits2_pos m) = 53 -> -1075 <= e -> e + 1 <= 971 ->
  mul lit_2_0 (S754_finite false m e) = S754_finite false m (e + 1).
Proof.
  intros Hd He1 He2.
  unfold mul, SFmul, lit_2_0. cbv beta iota.
  change (xorb false false) with false.
  replace (e + 1) with (-51 + e + 52) by lia.
  apply round_shift.
  - lazy beta iota delta [Pos.mul]. cbn [digits2_pos]. lia.
  - lazy beta iota delta [Pos.mul]. reflexivity.
  - exact Hd.
  - lia.
Qed.

Lemma digits_iter_xO k : forall p,
  Zpos (digits2_pos (Pos.iter xO p k)) = Zpos (digits2_pos p) + Zpos k.
Proof.
  induction k as [|k IH] using Pos.peano_ind; intros p.
  - simpl. lia.
  - rewrite Pos.iter_succ. cbn [digits2_pos]. rewrite Pos2Z.inj_succ, IH. lia.
Qed.

Lemma align53_digits p :
  Zpos (digits2_pos p) <= 53 -> Zpos (digits2_pos (align53 p)) = 53.
Proof.
  intros H. unfold align53.
  destruct (53 - Zpos (digits2_pos p)) as [|k|k] eqn:E; try lia.
  rewrite digits_iter_xO. lia.
Qed.

Lemma align53_xO p :
  Zpos (digits2_pos p) < 53 -> align53 (xO p) = align53 p.
Proof.
  intros H. unfold align53. cbn [digits2_pos]. rewrite Pos2Z.inj_succ.
  destruct (53 - Zpos (digits2_pos p)) as [|k|k] eqn:E; try lia.
  destruct (53 - Z.succ (Zpos (digits2_pos p))) as [|k'|k'] eqn:E'; try lia.
  - assert (k = 1%positive) by lia. subst. reflexivity.
  - assert (k = Pos.succ k') by lia. subst.
    rewrite Pos.iter_succ_r. reflexivity.
Qed.

Lemma float_of_exact p :
  Zpos (digits2_pos p) <= 53 ->
  float_of (Zpos p)
  = S754_finite false (align53 p) (Zpos (digits2_pos p) - 53).
Proof.
  intros Hd. unfold float_of, binary_normalize, binary_round.
  assert (Hf : fexp prec emax (Zpos (digits2_pos p) + 0)
               = Zpos (digits2_pos p) - 53).
  { unfold fexp, emin, prec, emax. lia. }
  rewrite Hf. pose proof (align53_digits p Hd) as Ha.
  unfold shl_align, align53 in *.
  destruct (53 - Zpos (digits2_pos p)) as [|k|k] eqn:E; try lia.
  - replace (Zpos (digits2_pos p) - 53 - 0) with 0 by lia.
    replace (Zpos (digits2_pos p) - 53) with 0 by lia.
    apply round_canonical; [exact Ha|lia].
  - replace (Zpos (digits2_pos p) - 53 - 0) with (Zneg k) by lia.
    apply round_canonical; [exact Ha|lia].
Qed.

Lemma float_of_double p :
  Zpos (digits2_pos p) <= 53 ->
  float_of (Zpos (xO p))
  = S754_finite false (align53 p) (Zpos (digits2_pos p) - 53 + 1).
Proof.
  intros Hd.
  destruct (Z.eq_dec (Zpos (digits2_pos p)) 53) as [E|E].
  - unfold float_of, binary_normalize, binary_round.
    assert (Hf : fexp prec emax (Zpos (digits2_pos (xO p)) + 0) = 1).
    { unfold fexp, emin, prec, emax. cbn [digits2_pos].
      rewrite Pos2Z.inj_succ. lia. }
    rewrite Hf. unfold shl_align. change (1 - 0) with 1. cbv beta iota.
    assert (Ha : align53 p = p).
    { unfold align53. rewrite E. reflexivity. }
    rewrite Ha, E. change (53 - 53 + 1) with (0 + Zpos 1).
    apply round_shift.
    + cbn [digits2_pos]. rewrite Pos2Z.inj_succ. lia.
    + reflexivity.
    + exact E.
    + lia.
  - rewrite float_of_exact.
    + rewrite align53_xO by lia. cbn [digits2_pos].
      rewrite Pos2Z.inj_succ. f_equal. lia.
    + cbn [digits2_pos]. rewrite Pos2Z.inj_succ. lia.
Qed.

(** 2.0 * n / (2 n) is 1.0 for a positive count below 2^53. *)
Lemma calculate_ratio_all n :
  0 < n < 2 ^ 53 ->
  Difflib.calculate_ratio n (n + n) = inr lit_1_0.
Proof.
  intros Hn. destruct n as [|p|p]; try lia.
  assert (Hd : Zpos (digits2_pos p) <= 53).
  { rewrite digits2_pos_size.
    pose proof (Pos.size_le p) as H.
    assert (H2 : (2 ^ Pos.size p <= 2 ^ 54)%positive) by lia.
    destruct (Z.le_gt_cases (Zpos (Pos.size p)) 53) as [|Hgt]; [assumption|].
    exfalso.
    assert (2 ^ 54 <= 2 ^ Zpos (Pos.size p)) by (apply Z.pow_le_mono_r; lia).
    rewrite <- Pos2Z.inj_pow in H0. lia. }
  unfold Difflib.calculate_ratio.
  replace (Zpos p + Zpos p) with (Zpos (xO p)) by lia.
  change (Zpos (xO p) =? 0) with false. cbv iota.
  assert (H1 : of_int (Zpos p) = inr (float_of (Zpos p))).
  { unfold of_int, float_of. fold (float_of (Zpos p)).
    rewrite float_of_exact by exact Hd. reflexivity. }
  assert (H2 : of_int (Zpos (xO p)) = inr (float_of (Zpos (xO p)))).
  { unfold of_int. fold (float_of (Zpos (xO p))).
    rewrite float_of_double by exact Hd. reflexivity. }
  rewrite H1, H2, float_of_exact, float_of_double by exact Hd.
  rewrite mul_2_canonical.
  - now rewrite div_self.
  - now apply align53_digits.
  - lia.
  - lia.
Qed.

Lemma binary_round_aux_finish s m e l :
  binary_round_aux prec emax s m e l
  = finish s
      (round_nearest_even (shr_m (fst (shr_fexp prec emax m e l)))
         (loc_of_shr_record (fst (shr_fexp prec emax m e l))))
      (snd (shr_fexp prec emax m e l)).
Proof.
  unfold binary_round_aux, finish.
  destruct (shr_fexp prec emax m e l) as [mrs' e']. reflexivity.
Qed.

Lemma finish_canonical s m e :
  Zpos (digits2_pos m) = 53 -> -1074 <= e <= 971 ->
  finish s (Zpos m) e = S754_finite s m e.
Proof.
  intros Hd He. unfold finish, shr_fexp.
  change (Zdigits2 (Zpos m)) with (Zpos (digits2_pos m)).
  assert (Hf : fexp prec emax (Zpos (digits2_pos m) + e) - e = 0).
  { unfold fexp, emin, prec, emax. rewrite Hd. lia. }
  rewrite Hf. simpl.
  destruct (e <=? emax - prec) eqn:E; [reflexivity|].
  apply Z.leb_gt in E. unfold emax, prec in E. lia.
Qed.

Lemma finish_carry s e :
  -1075 <= e <= 970 ->
  finish s (2 ^ 53) e = S754_finite s (2 ^ 52) (e + 1).
Proof.
  intros He. unfold finish, shr_fexp.
  change (Zdigits2 (2 ^ 53)) with 54.
  assert (Hf : fexp prec emax (54 + e) - e = 1).
  { unfold fexp, emin, prec, emax. lia. }
  rewrite Hf. simpl.
  destruct (e + 1 <=? emax - prec) eqn:E; [reflexivity|].
  apply Z.leb_gt in E. unfold emax, prec in E. lia.
Qed.

Lemma iter_pos_eq {A} (f : A -> A) p : forall x,
  SpecFloat.iter_pos f p x = Pos.iter f x p.
Proof.
  induction p as [p IH|p IH|]; intros x; simpl.
  - rewrite !IH. now rewrite <- !Pos.iter_swap.
  - now rewrite !IH.
  - reflexivity.
Qed.

Lemma shr_1_div2 mrs : 0 <= shr_m mrs -> shr_m (shr_1 mrs) = Z.div2 (shr_m mrs).
Proof. destruct mrs as [[|[p|p|]|p] r s]; simpl; try lia; reflexivity. Qed.

Lemma div2_nonneg a : 0 <= a -> 0 <= Z.div2 a.
Proof. intros H. rewrite Z.div2_div. apply Z.div_pos; lia. Qed.

Lemma shr_m_iter k : forall mrs,
  0 <= shr_m mrs ->
  0 <= shr_m (Pos.iter shr_1 mrs k) /\
  shr_m (Pos.iter shr_1 mrs k) = Z.shiftr (shr_m mrs) (Zpos k).
Proof.
  induction k as [|k IH] using Pos.peano_ind; intros mrs H.
  - change (Pos.iter shr_1 mrs 1) with (shr_1 mrs).
    rewrite shr_1_div2 by exact H. split; [now apply div2_nonneg|].
    now rewrite Z.div2_spec.
  - rewrite Pos.iter_succ. destruct (IH mrs H) as [H1 H2].
    rewrite shr_1_div2 by exact H1. rewrite H2. split.
    + apply div2_nonneg. apply Z.shiftr_nonneg. exact H.
    + rewrite Pos2Z.inj_succ, Z.div2_spec, Z.shiftr_shiftr by lia.
      f_equal.
Qed.

Lemma size_bounds p :
  2 ^ (Zpos (Pos.size p) - 1) <= Zpos p < 2 ^ Zpos (Pos.size p).
Proof.
  induction p as [p IH|p IH|]; simpl Pos.size.
  - rewrite Pos2Z.inj_succ. replace (Z.succ (Zpos (Pos.size p)) - 1)
      with (Z.succ (Zpos (Pos.size p) - 1)) by lia.
    rewrite !Z.pow_succ_r by lia. lia.
  - rewrite Pos2Z.inj_succ. replace (Z.succ (Zpos (Pos.size p)) - 1)
      with (Z.succ (Zpos (Pos.size p) - 1)) by lia.
    rewrite !Z.pow_succ_r by lia. lia.
  - simpl. lia.
Qed.

Lemma digits_bounds p :
  2 ^ (Zpos (digits2_pos p) - 1) <= Zpos p < 2 ^ Zpos (digits2_pos p).
Proof. rewrite digits2_pos_size. apply size_bounds. Qed.

Lemma digits_53 m : 2 ^ 52 <= Zpos m < 2 ^ 53 -> Zpos (digits2_pos m) = 53.
Proof.
  intros [H1 H2]. destruct (digits_bounds m) as [H3 H4].
  assert (Zpos (digits2_pos m) - 1 < 53).
  { apply (Z.pow_lt_mono_r_iff 2); lia. }
  assert (52 < Zpos (digits2_pos m)).
  { apply (Z.pow_lt_mono_r_iff 2); lia. }
  lia.
Qed.

Lemma rounded_xO p k : rounded (xO p) (Pos.succ k) = rounded p k.
Proof. unfold rounded. now rewrite Pos.iter_succ_r. Qed.

Lemma rounded_bounds p k :
  Zpos (digits2_pos p) = 53 + Zpos k -> 2 ^ 52 <= rounded p k <= 2 ^ 53.
Proof.
  intros Hd. unfold rounded.
  set (mrs := Pos.iter shr_1 _ k).
  destruct (shr_m_iter k (Build_shr_record (Zpos p) false false))
    as [_ Hq]; [simpl; lia|]. fold mrs in Hq. simpl in Hq.
  rewrite Z.shiftr_div_pow2 in Hq by lia.
  destruct (digits_bounds p) as [H1 H2]. rewrite Hd in H1, H2.
  replace (53 + Zpos k - 1) with (52 + Zpos k) in H1 by lia.
  rewrite Z.pow_add_r in H1, H2 by lia.
  assert (Hk : 0 < 2 ^ Zpos k) by (apply Z.pow_pos_nonneg; lia).
  assert (Hq1 : 2 ^ 52 <= shr_m mrs).
  { rewrite Hq. apply Z.div_le_lower_bound; lia. }
  assert (Hq2 : shr_m mrs < 2 ^ 53).
  { rewrite Hq. apply Z.div_lt_upper_bound; lia. }
  destruct (loc_of_shr_record mrs) as [|[| |]]; simpl; try lia.
  destruct (Z.even (shr_m mrs)); lia.
Qed.

Lemma round_big s p k e :
  Zpos (digits2_pos p) = 53 + Zpos k -> -1074 <= e + Zpos k ->
  binary_round_aux prec emax s (Zpos p) e loc_Exact
  = finish s (rounded p k) (e + Zpos k).
Proof.
  intros Hd He. rewrite binary_round_aux_finish. unfold shr_fexp.
  change (Zdigits2 (Zpos p)) with (Zpos (digits2_pos p)).
  assert (Hf : fexp prec emax (Zpos (digits2_pos p) + e) - e = Zpos k).
  { unfold fexp, emin, prec, emax. rewrite Hd. lia. }
  rewrite Hf. unfold shr. cbv beta iota. simpl fst. simpl snd.
  rewrite iter_pos_eq. reflexivity.
Qed.

Lemma finish_rounded s r :
  2 ^ 52 <= r <= 2 ^ 53 ->
  exists m d,
    Zpos (digits2_pos m) = 53 /\ 0 <= d <= 1 /\
    forall e, -1074 <= e <= 970 -> finish s r e = S754_finite s m (e + d).
Proof.
  intros [H1 H2]. destruct (Z.eq_dec r (2 ^ 53)) as [->|Hne].
  - exists (2 ^ 52)%positive, 1. repeat split; try lia.
    intros e He. apply finish_carry. lia.
  - destruct r as [|m|m]; try lia.
    exists m, 0. repeat split; try lia; [apply digits_53; lia|].
    intros e He. rewrite Z.add_0_r. apply finish_canonical; [|lia].
    apply digits_53. lia.
Qed.

(** [float(n)] and [float(2 * n)] for an int of more than 53 bits. *)
Lemma float_of_big p k :
  Zpos (digits2_pos p) = 53 + Zpos k -> Zpos k <= 969 ->
  exists m e,
    Zpos (digits2_pos m) = 53 /\ 0 <= e <= 970 /\
    float_of (Zpos p) = S754_finite false m e /\
    float_of (Zpos (xO p)) = S754_finite false m (e + 1).
Proof.
  intros Hd Hk.
  destruct (finish_rounded false (rounded p k) (rounded_bounds p k Hd))
    as (m & d & Hm & Hd01 & Hfin).
  exists m, (Zpos k + d). split; [exact Hm|]. split; [lia|].
  assert (Hshl : forall q j, Zpos (digits2_pos q) = 53 + Zpos j ->
            float_of (Zpos q)
            = binary_round_aux prec emax false (Zpos q) 0 loc_Exact).
  { intros q j Hq. unfold float_of, binary_normalize, binary_round.
    assert (Hf : fexp prec emax (Zpos (digits2_pos q) + 0) = Zpos j).
    { unfold fexp, emin, prec, emax. rewrite Hq. lia. }
    rewrite Hf. reflexivity. }
  split.
  - rewrite (Hshl p k Hd), (round_big false p k 0 Hd) by lia.
    rewrite Z.add_0_l. apply Hfin. lia.
  - assert (Hd' : Zpos (digits2_pos (xO p)) = 53 + Zpos (Pos.succ k)).
    { cbn [digits2_pos]. rewrite !Pos2Z.inj_succ. lia. }
    rewrite (Hshl (xO p) (Pos.succ k) Hd').
    rewrite (round_big false (xO p) (Pos.succ k) 0 Hd') by lia.
    rewrite rounded_xO, Z.add_0_l, Hfin by lia. f_equal. lia.
Qed.

(** 2.0 * n / (2 n) is 1.0 for every positive count whose double is a
    finite float. *)
Lemma calculate_ratio_self n :
  0 < n < 2 ^ 1022 ->
  Difflib.calculate_ratio n (n + n) = inr lit_1_0.
Proof.
  intros Hn. destruct n as [|p|p]; try lia.
  destruct (Z.le_gt_cases (Zpos (digits2_pos p)) 53) as [Hd|Hd].
  { apply calculate_ratio_all. split; [lia|].
    destruct (digits_bounds p) as [_ H].
    eapply Z.lt_le_trans; [exact H|]. apply Z.pow_le_mono_r; lia. }
  assert (Hk : exists k, Zpos (digits2_pos p) = 53 + Zpos k /\ Zpos k <= 969).
  { exists (Z.to_pos (Zpos (digits2_pos p) - 53)). split; [lia|].
    destruct (digits_bounds p) as [H _].
    assert (Zpos (digits2_pos p) - 1 < 1022).
    { apply (Z.pow_lt_mono_r_iff 2); lia. }
    lia. }
  destruct Hk as (k & Hk & Hk').
  destruct (float_of_big p k Hk Hk') as (m & e & Hm & He & H1 & H2).
  unfold Difflib.calculate_ratio.
  replace (Zpos p + Zpos p) with (Zpos (xO p)) by lia.
  change (Zpos (xO p) =? 0) with false. cbv iota.
  unfold of_int. fold (float_of (Zpos p)) (float_of (Zpos (xO p))).
  rewrite H1, H2, mul_2_canonical by (try assumption; lia).
  now rewrite div_self.
Qed.

End PyFloatExact.

(** ** The SM-2 update *)

Section ScheduleNext.
Context {J : JsonCodec}.
Implicit Types (w : world) (term : string) (quality : Z) (now_plus : clock).

(** Saving changes nothing but the file. *)
Lemma scheduler_after_save data w :
  scheduler (after (save_progress data w)) = scheduler w.
Proof.
  unfold save_progress, bind, gets, modify, raise, ret, after. simpl.
  destruct (disk_writable w); [|reflexivity]. simpl.
  destruct (snd (json_dump data)); reflexivity.
Qed.

Lemma progress_data_after_save data w :
  progress_data (after (save_progress data w)) = progress_data w.
Proof.
  unfold save_progress, bind, gets, modify, raise, ret, after. simpl.
  destruct (disk_writable w); [|reflexivity]. simpl.
  destruct (snd (json_dump data)); reflexivity.
Qed.

Lemma known_terms_after_save data w :
  known_terms (after (save_progress data w)) = known_terms w.
Proof.
  unfold save_progress, bind, gets, modify, raise, ret, after. simpl.
  destruct (disk_writable w); [|reflexivity]. simpl.
  destruct (snd (json_dump data)); reflexivity.
Qed.

Lemma save_progress_saved data w :
  saved w data (outcome (save_progress data w))
    (disk (after (save_progress data w))).
Proof.
  unfold saved, save_progress, bind, gets, modify, raise, ret, outcome, after.
  simpl. destruct (disk_writable w); simpl; [|now split].
  destruct (snd (json_dump data)); now split.
Qed.

Lemma save_progress_refused data w :
  disk_writable w = false -> save_progress data w = (inl OSError, w).
Proof.
  intros Hw. unfold save_progress, bind, gets, raise. simpl.
  now rewrite Hw.
Qed.

Lemma commits_save w term en :
  commits w term en
    (save_progress (progress_data (written w term en)) (written w term en)).
Proof.
  unfold commits.
  rewrite scheduler_after_save, progress_data_after_save,
    known_terms_after_save.
  repeat split. exact (save_progress_saved _ (written w term en)).
Qed.

(** Below 3 the quality is not looked at further: the entry is reset,
    whatever the integer is. *)
Lemma schedule_next_lt_3_run w term quality now_plus :
  quality < 3 ->
  match now_plus 1 with
  | inr due =>
      schedule_next term quality now_plus w
      = save_progress
          (progress_data
             (written w term
                {| e_interval := 1;
                   e_repetitions := 0;
                   e_ef := e_ef (prior_entry w term);
                   e_next_due := Some due |}))
          (written w term
             {| e_interval := 1;
                e_repetitions := 0;
                e_ef := e_ef (prior_entry w term);
                e_next_due := Some due |})
  | inl err => schedule_next term quality now_plus w = (inl err, w)
  end.
Proof.
  intros Hq. apply Z.ltb_lt in Hq.
  unfold schedule_next, bind, gets, ret, lift, modify. simpl.
  rewrite Hq. simpl. destruct (now_plus 1); reflexivity.
Qed.

Lemma schedule_next_lt_3 w term quality now_plus due :
  quality < 3 ->
  now_plus 1 = inr due ->
  scheduler (after (schedule_next term quality now_plus w)) !! term
  = Some {| e_interval := 1;
            e_repetitions := 0;
            e_ef := e_ef (prior_entry w term);
            e_next_due := Some due |}.
Proof.
  intros Hq Hclock.
  unfold schedule_next, bind, gets, ret, lift, modify. simpl.
  apply Z.ltb_lt in Hq. rewrite Hq. simpl. rewrite Hclock. simpl.
  rewrite scheduler_after_save. simpl.
  apply lookup_insert_eq.
Qed.

(** C1. For every term and every prior scheduling state, the stored one
    or the default of an absent entry, a call of [schedule_next] with
    quality below 3 leaves an entry with repetitions 0, interval 1 and
    the ease factor the term had before the call. The due date is that
    of the next day, which the clock must be able to name. *)
Theorem schedule_next_lapse w term quality now_plus due :
  quality < 3 ->
  now_plus 1 = inr due ->
  exists en,
    scheduler (after (schedule_next term quality now_plus w)) !! term
    = Some en /\
    e_repetitions en = 0 /\
    e_interval en = 1 /\
    e_ef en = e_ef (prior_entry w term) /\
    e_next_due en = Some due.
Proof.
  intros Hq Hclock. eexists. split.
  - apply schedule_next_lt_3; eassumption.
  - repeat split.
Qed.

Lemma of_int_float_of n :
  PyFloat.of_int n = inr (float_of n) \/
  exists s, float_of n = S754_infinity s.
Proof.
  unfold PyFloat.of_int, float_of.
  destruct (binary_normalize _ _ n 0 false); eauto.
Qed.

Lemma floor_mul_infinity s y :
  PyFloat.floor (S754_infinity s * y)%F = None.
Proof. destruct y; reflexivity. Qed.

Lemma spec_ease_lower_bound ease quality :
  PyFloat.leb PyFloat.lit_1_3 (spec_ease ease quality) = true.
Proof. apply PyFloatFacts.max_lower_bound. reflexivity. Qed.

(** From 3 on the quality enters the ease factor through [5 - quality]
    as a float; the statement holds for every integer whose difference
    to 5 has one. *)
Lemma schedule_next_ge_3 w term quality now_plus interval' due :
  3 <= quality ->
  PyFloat.of_int (5 - quality) = inr (float_of (5 - quality)) ->
  0 <= e_interval (prior_entry w term) ->
  spec_interval (e_interval (prior_entry w term))
                (e_repetitions (prior_entry w term) + 1)
                (spec_ease (e_ef (prior_entry w term)) quality)
  = Some interval' ->
  now_plus interval' = inr due ->
  scheduler (after (schedule_next term quality now_plus w)) !! term
  = Some {| e_interval := interval';
            e_repetitions := e_repetitions (prior_entry w term) + 1;
            e_ef := spec_ease (e_ef (prior_entry w term)) quality;
            e_next_due := Some due |}.
Proof.
  intros Hq Hd Hint Hspec Hclock.
  assert (Hlt : (quality <? 3) = false) by (apply Z.ltb_ge; lia).
  unfold schedule_next, bind, gets, ret, lift, modify. simpl.
  fold (prior_entry w term).
  rewrite Hlt, Hd. simpl.
  fold (spec_ease (e_ef (prior_entry w term)) quality).
  unfold spec_interval in Hspec.
  destruct (e_repetitions (prior_entry w term) + 1 =? 1) eqn:E1.
  { injection Hspec as <-. simpl. rewrite Hclock. simpl.
    rewrite scheduler_after_save. simpl. apply lookup_insert_eq. }
  destruct (e_repetitions (prior_entry w term) + 1 =? 2) eqn:E2.
  { injection Hspec as <-. simpl. rewrite Hclock. simpl.
    rewrite scheduler_after_save. simpl. apply lookup_insert_eq. }
  destruct (of_int_float_of (e_interval (prior_entry w term)))
    as [Hi|[s Hinf]].
  2:{ rewrite Hinf, floor_mul_infinity in Hspec. discriminate. }
  rewrite Hi. simpl.
  assert (Hto : PyFloat.to_int
                  (float_of (e_interval (prior_entry w term))
                   * spec_ease (e_ef (prior_entry w term)) quality)%F
                = inr interval').
  { apply PyFloatFacts.to_int_floor; [|exact Hspec].
    destruct (PyFloatFacts.mul_nonneg
                (float_of (e_interval (prior_entry w term)))
                (spec_ease (e_ef (prior_entry w term)) quality))
      as [Hnan|Hnn]; [| |rewrite Hnan in Hspec; discriminate|exact Hnn].
    - eapply PyFloatFacts.of_int_nonneg; eassumption.
    - apply PyFloatFacts.leb_1_3_nonneg, spec_ease_lower_bound. }
  rewrite Hto. simpl. rewrite Hclock. simpl.
  rewrite scheduler_after_save. simpl. apply lookup_insert_eq.
Qed.

Lemma of_int_cases n :
  PyFloat.of_int n = inr (float_of n) \/ PyFloat.of_int n = inl OverflowError.
Proof.
  unfold PyFloat.of_int, float_of.
  destruct (binary_normalize _ _ n 0 false); auto.
Qed.

(** The success branch as a whole, for every quality from 3 on whose
    difference to 5 has a float: the call stores the entry of the formulas
    and saves, or it raises before line 101 and changes nothing. *)
Lemma schedule_next_ge_3_run w term quality now_plus :
  3 <= quality ->
  PyFloat.of_int (5 - quality) = inr (float_of (5 - quality)) ->
  0 <= e_interval (prior_entry w term) ->
  match spec_interval (e_interval (prior_entry w term))
                      (e_repetitions (prior_entry w term) + 1)
                      (spec_ease (e_ef (prior_entry w term)) quality) with
  | Some interval' =>
      match now_plus interval' with
      | inr due =>
          commits w term
            {| e_interval := interval';
               e_repetitions := e_repetitions (prior_entry w term) + 1;
               e_ef := spec_ease (e_ef (prior_entry w term)) quality;
               e_next_due := Some due |}
            (schedule_next term quality now_plus w)
      | inl err => schedule_next term quality now_plus w = (inl err, w)
      end
  | None =>
      exists err, (err = OverflowError \/ err = ValueError) /\
                  schedule_next term quality now_plus w = (inl err, w)
  end.
Proof.
  intros Hq Hd Hint.
  assert (Hlt : (quality <? 3) = false) by (apply Z.ltb_ge; lia).
  assert (Hdone : forall i,
    match now_plus i with
    | inr due =>
        commits w term
          {| e_interval := i;
             e_repetitions := e_repetitions (prior_entry w term) + 1;
             e_ef := spec_ease (e_ef (prior_entry w term)) quality;
             e_next_due := Some due |}
          (match now_plus i with
           | inr due =>
               save_progress
                 (progress_data
                    (written w term
                       (Entry i (e_repetitions (prior_entry w term) + 1)
                          (spec_ease (e_ef (prior_entry w term)) quality)
                          (Some due))))
                 (written w term
                    (Entry i (e_repetitions (prior_entry w term) + 1)
                       (spec_ease (e_ef (prior_entry w term)) quality)
                       (Some due)))
           | inl err => (inl err, w)
           end)
    | inl err =>
        match now_plus i with
        | inr due =>
            save_progress
              (progress_data
                 (written w term
                    (Entry i (e_repetitions (prior_entry w term) + 1)
                       (spec_ease (e_ef (prior_entry w term)) quality)
                       (Some due))))
              (written w term
                 (Entry i (e_repetitions (prior_entry w term) + 1)
                    (spec_ease (e_ef (prior_entry w term)) quality)
                    (Some due)))
        | inl err => (inl err, w)
        end = (inl err, w)
    end).
  { intros i. destruct (now_plus i) as [err|due]; [reflexivity|].
    apply commits_save. }
  unfold schedule_next, bind, gets, ret, lift, modify. simpl.
  fold (prior_entry w term).
  rewrite Hlt, Hd. simpl.
  fold (spec_ease (e_ef (prior_entry w term)) quality).
  unfold spec_interval.
  destruct (e_repetitions (prior_entry w term) + 1 =? 1) eqn:E1;
    [exact (Hdone 1)|].
  destruct (e_repetitions (prior_entry w term) + 1 =? 2) eqn:E2;
    [exact (Hdone 6)|].
  destruct (of_int_float_of (e_interval (prior_entry w term)))
    as [Hi|[s Hinf]].
  2:{ rewrite Hinf, floor_mul_infinity.
      destruct (of_int_cases (e_interval (prior_entry w term))) as [Hi|Hi].
      - unfold PyFloat.of_int in Hi. unfold float_of in Hinf.
        rewrite Hinf in Hi. discriminate.
      - rewrite Hi. simpl. eauto. }
  rewrite Hi. simpl.
  destruct (PyFloatFacts.mul_nonneg
              (float_of (e_interval (prior_entry w term)))
              (spec_ease (e_ef (prior_entry w term)) quality))
    as [Hnan|Hnn].
  - eapply PyFloatFacts.of_int_nonneg; eassumption.
  - apply PyFloatFacts.leb_1_3_nonneg, spec_ease_lower_bound.
  - rewrite Hnan. simpl. eauto.
  - destruct (PyFloat.floor
                (float_of (e_interval (prior_entry w term))
                 * spec_ease (e_ef (prior_entry w term)) quality)%F)
      as [n|] eqn:Hfl.
    + rewrite (PyFloatFacts.to_int_floor _ n Hnn Hfl). simpl.
      exact (Hdone n).
    + destruct (float_of (e_interval (prior_entry w term))
                * spec_ease (e_ef (prior_entry w term)) quality)%F
        as [?|?| |? ? ?]; try discriminate Hfl; simpl; eauto.
Qed.

(** C2, as the code has it. For every term, every prior state with an
    interval that is not negative, and every quality from 3 to 5, let the new
    ease factor be [max(1.3, ease + (0.1 - (5 - quality) * (0.08 + (5 -
    quality) * 0.02)))], the new repetitions the old ones plus one, and the
    new interval 1 when the new repetitions are 1, 6 when they are 2, and
    the floor of the old interval times the new ease factor otherwise. When
    the clock can name the day that lies the new interval ahead,
    [schedule_next] stores exactly these three values, with that due date,
    as the entry of the term, and saves. When it cannot, or when the product
    has no floor, [schedule_next] raises and changes nothing: the entry
    keeps its interval, its repetitions and its ease factor. *)
Theorem schedule_next_success w term quality now_plus :
  3 <= quality <= 5 ->
  0 <= e_interval (prior_entry w term) ->
  match spec_interval (e_interval (prior_entry w term))
                      (e_repetitions (prior_entry w term) + 1)
                      (spec_ease (e_ef (prior_entry w term)) quality) with
  | Some interval' =>
      match now_plus interval' with
      | inr due =>
          commits w term
            {| e_interval := interval';
               e_repetitions := e_repetitions (prior_entry w term) + 1;
               e_ef := spec_ease (e_ef (prior_entry w term)) quality;
               e_next_due := Some due |}
            (schedule_next term quality now_plus w)
      | inl err => schedule_next term quality now_plus w = (inl err, w)
      end
  | None =>
      exists err, (err = OverflowError \/ err = ValueError) /\
                  schedule_next term quality now_plus w = (inl err, w)
  end.
Proof.
  intros Hq. apply schedule_next_ge_3_run; [lia|].
  assert (Hcases : quality = 3 \/ quality = 4 \/ quality = 5) by lia.
  destruct Hcases as [->|[->| ->]]; reflexivity.
Qed.

(** *** What a call can do to the globals *)

(** A call either raises before line 101 and leaves the world as it was,
    or goes through lines 101-102 with some entry and saves. The ease
    factor of the entry is the prior one (lapse) or a [max(1.3, _)]
    (success). *)
Lemma schedule_next_run w term quality now_plus :
  (exists err, schedule_next term quality now_plus w = (inl err, w)) \/
  (exists en,
     schedule_next term quality now_plus w
     = save_progress (progress_data (written w term en)) (written w term en)
     /\ (e_ef en = e_ef (prior_entry w term) \/
         exists x, e_ef en = PyFloat.max PyFloat.lit_1_3 x)).
Proof.
  unfold schedule_next, bind, gets, ret, lift, modify. simpl.
  fold (prior_entry w term).
  destruct (quality <? 3).
  { simpl. destruct (now_plus 1) as [err|due]; [left; eauto|].
    right. eexists (Entry _ _ _ _). split; [reflexivity|]. now left. }
  destruct (PyFloat.of_int (5 - quality)) as [err|d]; [left; eauto|]. simpl.
  set (ef' := PyFloat.max _ _).
  assert (Hsucc : forall i r,
    (exists err,
       match now_plus i with
       | inr due =>
           save_progress
             (progress_data (written w term (Entry i r ef' (Some due))))
             (written w term (Entry i r ef' (Some due)))
       | inl err => (inl err, w)
       end = (inl err, w)) \/
    (exists en,
       match now_plus i with
       | inr due =>
           save_progress
             (progress_data (written w term (Entry i r ef' (Some due))))
             (written w term (Entry i r ef' (Some due)))
       | inl err => (inl err, w)
       end
       = save_progress (progress_data (written w term en)) (written w term en)
       /\ (e_ef en = e_ef (prior_entry w term) \/
           exists x, e_ef en = PyFloat.max PyFloat.lit_1_3 x))).
  { intros i r. destruct (now_plus i) as [err|due]; [left; eauto|].
    right. eexists (Entry _ _ _ _). split; [reflexivity|]. right.
    now eexists. }
  destruct (e_repetitions (prior_entry w term) + 1 =? 1); [apply Hsucc|].
  destruct (e_repetitions (prior_entry w term) + 1 =? 2); [apply Hsucc|].
  destruct (PyFloat.of_int (e_interval (prior_entry w term)))
    as [err|i]; [left; eauto|]. simpl.
  destruct (PyFloat.to_int (i * ef')%F) as [err|n]; [left; eauto|].
  apply Hsucc.
Qed.

(** Its effect on the globals. *)
Lemma schedule_next_shape w term quality now_plus :
  let w' := after (schedule_next term quality now_plus w) in
  w' = w \/
  exists en,
    scheduler w' = <[term := en]> (scheduler w) /\
    progress_data w'
    = {| pd_known_terms := pd_known_terms (progress_data w);
         pd_scheduler := Some (<[term := en]> (scheduler w)) |} /\
    known_terms w' = known_terms w /\
    saved w (progress_data w')
      (outcome (schedule_next term quality now_plus w)) (disk w') /\
    (e_ef en = e_ef (prior_entry w term) \/
     exists x, e_ef en = PyFloat.max PyFloat.lit_1_3 x).
Proof.
  destruct (schedule_next_run w term quality now_plus)
    as [[err ->]|(en & -> & Hef)]; [now left|].
  right. exists en. cbv zeta.
  destruct (commits_save w term en) as (H1 & H2 & H3 & H4).
  repeat split; assumption.
Qed.

(** *** The lower bound of the ease factor *)

Lemma prior_entry_bounded w term :
  ease_bounded (scheduler w) ->
  PyFloat.leb PyFloat.lit_1_3 (e_ef (prior_entry w term)) = true.
Proof.
  intros H. unfold prior_entry.
  destruct (scheduler w !! term) as [en|] eqn:E; simpl.
  - exact (H term en E).
  - reflexivity.
Qed.

Lemma ease_bounded_insert sched term en :
  ease_bounded sched ->
  PyFloat.leb PyFloat.lit_1_3 (e_ef en) = true ->
  ease_bounded (<[term := en]> sched).
Proof.
  intros H Hen t en' Hl.
  destruct (decide (term = t)) as [->|Hne].
  - rewrite lookup_insert_eq in Hl. now injection Hl as <-.
  - rewrite lookup_insert_ne in Hl by exact Hne. exact (H t en' Hl).
Qed.

Lemma schedule_next_ease_invariant w term quality now_plus :
  ease_invariant w ->
  ease_invariant (after (schedule_next term quality now_plus w)).
Proof.
  intros [Hs Hp].
  destruct (schedule_next_shape w term quality now_plus)
    as [->|(en & H1 & H2 & _ & _ & Hef)]; [now split|].
  assert (Hen : PyFloat.leb PyFloat.lit_1_3 (e_ef en) = true).
  { destruct Hef as [->|[x ->]].
    - now apply prior_entry_bounded.
    - apply PyFloatFacts.max_lower_bound. reflexivity. }
  split.
  - rewrite H1. now apply ease_bounded_insert.
  - rewrite H2. simpl. now apply ease_bounded_insert.
Qed.

(** C3. From a state in which every stored ease factor is at least 1.3,
    the empty scheduler of a first run among them, every finite sequence
    of calls of [schedule_next], with any terms and any integer
    qualities, leaves every stored ease factor at least 1.3. *)
Theorem ease_factor_never_below_1_3 calls w :
  ease_invariant w -> ease_invariant (run_calls calls w).
Proof.
  revert w. induction calls as [|c calls IH]; intros w Hw; simpl.
  - exact Hw.
  - apply IH, schedule_next_ease_invariant, Hw.
Qed.

(** The bound also holds across runs of the script, where start-up reads
    the globals back from the file, given the round trip of the codec. *)
Lemma startup_ease_invariant w :
  ease_invariant w -> stored_bounded w -> ease_invariant (after (startup w)).
Proof.
  intros Hw Hd. unfold startup, load_progress, bind, gets, lift, ret, modify.
  simpl. destruct (disk w) as [doc|] eqn:E; simpl.
  - destruct (json_load doc) as [err|data] eqn:El; simpl; [exact Hw|].
    split; exact (Hd doc data E El).
  - split; intros t en H; simpl in H; rewrite lookup_empty in H;
      discriminate.
Qed.

Lemma startup_disk w : disk (after (startup w)) = disk w.
Proof.
  unfold startup, load_progress, bind, gets, lift, ret, modify. simpl.
  destruct (disk w) as [doc|] eqn:E; simpl; [|exact E].
  destruct (json_load doc); simpl; exact E.
Qed.

Lemma schedule_next_stored_bounded {R : JsonRoundTrip J} w term quality
    now_plus :
  ease_invariant w -> stored_bounded w ->
  stored_bounded (after (schedule_next term quality now_plus w)).
Proof.
  intros Hw Hd.
  pose proof (schedule_next_ease_invariant w term quality now_plus Hw)
    as [_ Hp].
  destruct (schedule_next_shape w term quality now_plus)
    as [->|(en & _ & _ & _ & Hk & _)]; [exact Hd|].
  unfold saved in Hk. destruct (disk_writable w).
  - destruct Hk as [Hk _]. intros doc data Hdoc Hload.
    rewrite Hk in Hdoc. injection Hdoc as <-.
    destruct (json_dump _) as [text [err|]] eqn:E; simpl in Hload.
    + rewrite (json_load_cut_off _ _ _ E) in Hload. discriminate.
    + rewrite (json_load_dump _ _ E) in Hload. injection Hload as <-.
      exact Hp.
  - destruct Hk as [Hk _]. intros doc data Hdoc. rewrite Hk in Hdoc.
    exact (Hd doc data Hdoc).
Qed.

Theorem ease_factor_across_reruns {R : JsonRoundTrip J} calls w :
  ease_invariant w -> stored_bounded w ->
  ease_invariant (rerun_calls calls w) /\ stored_bounded (rerun_calls calls w).
Proof.
  revert w. induction calls as [|c calls IH]; intros w Hw Hd; simpl.
  - now split.
  - unfold bind at 1 2.
    pose proof (startup_ease_invariant w Hw Hd) as Hs.
    assert (Hsd : stored_bounded (after (startup w))).
    { intros doc data. rewrite startup_disk. apply Hd. }
    destruct (startup w) as [[err|[]] w1]; simpl in *.
    + now apply IH.
    + apply IH.
      * now apply schedule_next_ease_invariant.
      * now apply schedule_next_stored_bounded.
Qed.

(** *** No check of the quality *)

(** C4, as the code has it. [schedule_next] has no check of its quality and
    no error for one outside 0..5. A quality below 0 is handled exactly as
    quality 0 is, like every quality below 3: when the clock can name the
    next day the entry of the term becomes interval 1, repetitions 0, the
    prior ease factor and that due date, in [scheduler] and in
    [progress_data], and [progress_data] is saved; when it cannot, the call
    raises and changes nothing. A quality above 5 goes through the success
    branch with the formulas of C2 at that quality: when [5 - quality] has a
    float, the new interval has a value and the clock can name its day, the
    entry of these values is stored and saved in the same way; in every
    other case the call raises OverflowError or ValueError, from the
    arithmetic or from the date and not for the quality, and changes
    nothing. *)
Theorem schedule_next_quality_unchecked w term quality now_plus :
  (quality < 0 ->
   schedule_next term quality now_plus w = schedule_next term 0 now_plus w /\
   match now_plus 1 with
   | inr due =>
       commits w term
         {| e_interval := 1;
            e_repetitions := 0;
            e_ef := e_ef (prior_entry w term);
            e_next_due := Some due |}
         (schedule_next term quality now_plus w)
   | inl err => schedule_next term quality now_plus w = (inl err, w)
   end) /\
  (5 < quality ->
   0 <= e_interval (prior_entry w term) ->
   match PyFloat.of_int (5 - quality) with
   | inr _ =>
       match spec_interval (e_interval (prior_entry w term))
                           (e_repetitions (prior_entry w term) + 1)
                           (spec_ease (e_ef (prior_entry w term)) quality) with
       | Some interval' =>
           match now_plus interval' with
           | inr due =>
               commits w term
                 {| e_interval := interval';
                    e_repetitions := e_repetitions (prior_entry w term) + 1;
                    e_ef := spec_ease (e_ef (prior_entry w term)) quality;
                    e_next_due := Some due |}
                 (schedule_next term quality now_plus w)
           | inl err => schedule_next term quality now_plus w = (inl err, w)
           end
       | None =>
           exists err, (err = OverflowError \/ err = ValueError) /\
                       schedule_next term quality now_plus w = (inl err, w)
       end
   | inl _ => schedule_next term quality now_plus w = (inl OverflowError, w)
   end).
Proof.
  split.
  - intros Hq. split.
    + pose proof (schedule_next_lt_3_run w term quality now_plus
                    ltac:(lia)) as H1.
      pose proof (schedule_next_lt_3_run w term 0 now_plus ltac:(lia)) as H2.
      destruct (now_plus 1); congruence.
    + pose proof (schedule_next_lt_3_run w term quality now_plus
                    ltac:(lia)) as H1.
      destruct (now_plus 1) as [err|due]; [exact H1|].
      rewrite H1. apply commits_save.
  - intros Hq Hint.
    destruct (of_int_cases (5 - quality)) as [Hd|Hd]; rewrite Hd.
    + apply schedule_next_ge_3_run; [lia|exact Hd|exact Hint].
    + assert (Hlt : (quality <? 3) = false) by (apply Z.ltb_ge; lia).
      unfold schedule_next, bind, gets, ret, lift, modify. simpl.
      rewrite Hlt, Hd. reflexivity.
Qed.

(** *** Frame of the handlers *)

Lemma mark_known_globals w choice :
  let w' := after (mark_known choice w) in
  known_terms w' = {[choice]} ∪ known_terms w /\
  scheduler w' = scheduler w /\
  progress_data w'
  = {| pd_known_terms := Some (elements ({[choice]} ∪ known_terms w));
       pd_scheduler := pd_scheduler (progress_data w) |}.
Proof.
  unfold mark_known, bind, gets, modify. simpl.
  rewrite known_terms_after_save, scheduler_after_save,
    progress_data_after_save. simpl. repeat split.
Qed.

Lemma mark_known_saved w choice :
  saved w (progress_data (after (mark_known choice w)))
    (outcome (mark_known choice w)) (disk (after (mark_known choice w))).
Proof.
  unfold mark_known, bind, gets, modify. simpl.
  rewrite progress_data_after_save. simpl.
  match goal with |- context [save_progress ?d ?v] =>
    exact (save_progress_saved d v) end.
Qed.

Lemma mark_unknown_globals w choice :
  let w' := after (mark_unknown choice w) in
  known_terms w' = known_terms w ∖ {[choice]} /\
  scheduler w' = scheduler w /\
  progress_data w'
  = {| pd_known_terms := Some (elements (known_terms w ∖ {[choice]}));
       pd_scheduler := pd_scheduler (progress_data w) |}.
Proof.
  unfold mark_unknown, bind, gets, modify. simpl.
  rewrite known_terms_after_save, scheduler_after_save,
    progress_data_after_save. simpl. repeat split.
Qed.

Lemma mark_unknown_saved w choice :
  saved w (progress_data (after (mark_unknown choice w)))
    (outcome (mark_unknown choice w)) (disk (after (mark_unknown choice w))).
Proof.
  unfold mark_unknown, bind, gets, modify. simpl.
  rewrite progress_data_after_save. simpl.
  match goal with |- context [save_progress ?d ?v] =>
    exact (save_progress_saved d v) end.
Qed.

(** Start-up makes the two views of the scheduler agree, and the handlers
    keep them so. *)
Lemma startup_coherent w :
  outcome (startup w) = inr tt -> coherent (after (startup w)).
Proof.
  unfold startup, load_progress, bind, gets, modify, lift, ret, coherent,
    outcome, after. simpl.
  destruct (disk w) as [doc|]; simpl; [|reflexivity].
  destruct (json_load doc) as [err|d]; simpl; [discriminate|reflexivity].
Qed.

Lemma schedule_next_coherent w term quality now_plus :
  coherent w -> coherent (after (schedule_next term quality now_plus w)).
Proof.
  intros Hw.
  destruct (schedule_next_shape w term quality now_plus)
    as [->|(en & H1 & H2 & _)]; [exact Hw|].
  unfold coherent. now rewrite H1, H2.
Qed.

Lemma mark_known_coherent w choice :
  coherent w -> coherent (after (mark_known choice w)).
Proof.
  intros Hw. destruct (mark_known_globals w choice) as (_ & H1 & H2).
  unfold coherent. rewrite H1, H2. exact Hw.
Qed.

Lemma mark_unknown_coherent w choice :
  coherent w -> coherent (after (mark_unknown choice w)).
Proof.
  intros Hw. destruct (mark_unknown_globals w choice) as (_ & H1 & H2).
  unfold coherent. rewrite H1, H2. exact Hw.
Qed.

Lemma clear_all_progress_coherent w :
  coherent (after (clear_all_progress w)).
Proof.
  unfold clear_all_progress, bind, gets, modify, coherent. simpl.
  now rewrite scheduler_after_save, progress_data_after_save.
Qed.

(** C10. Each handler puts its change into [progress_data] and hands
    [progress_data] to [save_progress], so the snapshot that the file holds
    afterwards is the dump of that dictionary (a file that cannot be opened
    for writing keeps what it held). "Mark as Known" and "Mark as Unknown"
    set the known terms in it and leave its scheduler mapping, every entry
    of it, as it was, in the dictionary as in the global. [schedule_next]
    leaves the known terms as they were and changes no entry of the
    scheduler mapping but that of its term; when it raises before line 101
    it leaves the whole state, file included, as it was. *)
Theorem progress_frame w choice term quality now_plus :
  coherent w ->
  (let r := mark_known choice w in
   scheduler (after r) = scheduler w /\
   pd_scheduler (progress_data (after r)) = pd_scheduler (progress_data w) /\
   pd_known_terms (progress_data (after r))
   = Some (elements ({[choice]} ∪ known_terms w)) /\
   saved w (progress_data (after r)) (outcome r) (disk (after r))) /\
  (let r := mark_unknown choice w in
   scheduler (after r) = scheduler w /\
   pd_scheduler (progress_data (after r)) = pd_scheduler (progress_data w) /\
   pd_known_terms (progress_data (after r))
   = Some (elements (known_terms w ∖ {[choice]})) /\
   saved w (progress_data (after r)) (outcome r) (disk (after r))) /\
  (let r := schedule_next term quality now_plus w in
   known_terms (after r) = known_terms w /\
   pd_known_terms (progress_data (after r))
   = pd_known_terms (progress_data w) /\
   (forall t, t <> term ->
      scheduler (after r) !! t = scheduler w !! t /\
      default ∅ (pd_scheduler (progress_data (after r))) !! t
      = default ∅ (pd_scheduler (progress_data w)) !! t) /\
   (after r = w \/
    saved w (progress_data (after r)) (outcome r) (disk (after r)))).
Proof.
  intros Hw.
  destruct (mark_known_globals w choice) as (_ & K1 & K2).
  destruct (mark_unknown_globals w choice) as (_ & U1 & U2).
  split; [|split]; cbv zeta.
  - rewrite K2. repeat split; [exact K1|].
    rewrite <- K2. apply mark_known_saved.
  - rewrite U2. repeat split; [exact U1|].
    rewrite <- U2. apply mark_unknown_saved.
  - destruct (schedule_next_shape w term quality now_plus)
      as [->|(en & H1 & H2 & H3 & H4 & _)]; [repeat split; now left|].
    split; [exact H3|]. split; [now rewrite H2|]. split; [|now right].
    intros t Ht. rewrite H1, H2. simpl.
    rewrite (lookup_insert_ne (scheduler w) term t en) by congruence.
    unfold coherent in Hw. now rewrite Hw.
Qed.

End ScheduleNext.

(** ** Persistence *)

Section PersistenceFacts.
Context {J : JsonCodec}.
Implicit Types (w : world) (data : progress).

(** C8. When progress.json is absent, [load_progress] returns
    [{"known_terms": [], "scheduler": {}}] and raises nothing; when it is
    present, it returns what the file holds, the [json.load] of its
    document. The globals and the file are not touched. *)
Theorem load_progress_absent_or_stored w :
  (disk w = None -> load_progress w = (inr empty_progress, w)) /\
  (forall doc, disk w = Some doc -> load_progress w = (json_load doc, w)).
Proof.
  unfold load_progress, bind, gets, lift, ret. simpl.
  split.
  - now intros ->.
  - now intros doc ->.
Qed.

(** *** Write-through: a new run of the script finds the state again *)

(** On a world in step with its file, start-up changes nothing. *)
Lemma startup_in_sync w : in_sync w -> startup w = (inr tt, w).
Proof.
  intros ((doc & Hd & Hl) & Hc & Hk).
  unfold startup, load_progress, bind, gets, lift, ret, modify. simpl.
  rewrite Hd. simpl. rewrite Hl. simpl.
  unfold coherent in Hc. rewrite Hc, <- Hk.
  destruct w; reflexivity.
Qed.

(** Start-up itself leaves the world in step with the file it read. *)
Lemma in_sync_startup w :
  disk w <> None -> outcome (startup w) = inr tt ->
  in_sync (after (startup w)).
Proof.
  unfold startup, load_progress, bind, gets, lift, ret, modify, outcome,
    after, in_sync, coherent. simpl.
  destruct (disk w) as [doc|] eqn:E; [|congruence]. intros _. simpl.
  destruct (json_load doc) as [err|data] eqn:El; simpl; [discriminate|].
  intros _. repeat split. exists doc. rewrite E. auto.
Qed.

Section WriteThrough.
Context {R : JsonRoundTrip J}.

Lemma in_sync_save w :
  outcome (save_progress (progress_data w) w) = inr tt ->
  coherent w ->
  known_terms w = list_to_set (default [] (pd_known_terms (progress_data w))) ->
  in_sync (after (save_progress (progress_data w) w)).
Proof.
  intros Ho Hc Hk. revert Ho.
  unfold save_progress, bind, gets, modify, raise, ret, outcome, after.
  simpl. destruct (disk_writable w); simpl; [|discriminate].
  destruct (json_dump (progress_data w)) as [text [err|]] eqn:E; simpl;
    [discriminate|]. intros _.
  repeat split; try assumption.
  eexists. split; [reflexivity|]. exact (json_load_dump _ _ E).
Qed.

(** Each handler that returns has saved, and leaves the world in step with
    the file, so the next run starts from what the handler left. *)
Lemma in_sync_mark_known w choice :
  outcome (mark_known choice w) = inr tt -> coherent w ->
  in_sync (after (mark_known choice w)).
Proof.
  unfold mark_known, bind, gets, modify. simpl. intros Ho Hc.
  apply in_sync_save; [exact Ho|exact Hc|]. simpl.
  now rewrite list_to_set_elements_L.
Qed.

Lemma in_sync_mark_unknown w choice :
  outcome (mark_unknown choice w) = inr tt -> coherent w ->
  in_sync (after (mark_unknown choice w)).
Proof.
  unfold mark_unknown, bind, gets, modify. simpl. intros Ho Hc.
  apply in_sync_save; [exact Ho|exact Hc|]. simpl.
  now rewrite list_to_set_elements_L.
Qed.

Lemma in_sync_clear_all_progress w :
  outcome (clear_all_progress w) = inr tt ->
  in_sync (after (clear_all_progress w)).
Proof.
  unfold clear_all_progress, bind, gets, modify. simpl. intros Ho.
  apply in_sync_save; [exact Ho|reflexivity|reflexivity].
Qed.

Lemma in_sync_schedule_next w term quality now_plus :
  outcome (schedule_next term quality now_plus w) = inr tt -> in_sync w ->
  in_sync (after (schedule_next term quality now_plus w)).
Proof.
  intros Ho Hs. revert Ho.
  destruct (schedule_next_run w term quality now_plus)
    as [[err ->]|(en & -> & _)]; [discriminate|]. intros Ho.
  destruct Hs as (_ & _ & Hk).
  apply in_sync_save; [exact Ho|reflexivity|exact Hk].
Qed.

End WriteThrough.

End PersistenceFacts.

Module JsonFacts.
Import Json.

(** *** Strings *)



(** *** A number ends where the text that follows it starts *)




Local Arguments lex_digits : simpl never.










(** *** Ints *)







End JsonFacts.

Module JsonRoundTripFacts.
Import Json JsonFacts.


(** *** The equations of the encoder *)









(** *** What the scanner tells about the head of a text *)





(** *** Values that are one chunk *)


(** *** The round trip of a value *)










End JsonRoundTripFacts.

Module JsonProgressFacts.
Import Json JsonFacts JsonRoundTripFacts.









End JsonProgressFacts.

(** ** [save_progress] and [load_progress] on the text of CPython *)


(** ** The sidebar filters *)

Section FilterFacts.
Variable terms_list : list term_record.
Implicit Types (selected_tags : list string) (selected_week : week_choice)
  (sched : gmap string entry) (now_iso : string) (e : term_record).

Lemma leb_empty (s : string) : String.leb EmptyString s = true.
Proof. destruct s; reflexivity. Qed.

(** A term without an entry is due at every time. *)
Lemma is_due_absent sched now_iso e :
  sched !! term e = None -> is_due sched now_iso e = true.
Proof. intros H. unfold is_due. rewrite H. apply leb_empty. Qed.

(** The intersection of the two tag sets is inhabited exactly when some
    tag of the term is selected. *)
Lemma shares_tag_spec selected_tags e :
  shares_tag selected_tags e = true <->
  exists t, In t (default [] (tags e)) /\ In t selected_tags.
Proof.
  unfold shares_tag. rewrite bool_decide_eq_true. split.
  - intros H. apply set_choose_L in H as [t Ht].
    apply elem_of_intersection in Ht as [H1 H2].
    rewrite elem_of_list_to_set, list_elem_of_In in H1, H2. eauto.
  - intros (t & H1 & H2) Hempty.
    assert (Ht : t ∈ (list_to_set (default [] (tags e)) : gset string)
                     ∩ list_to_set selected_tags).
    { apply elem_of_intersection.
      rewrite !elem_of_list_to_set, !list_elem_of_In. auto. }
    rewrite Hempty in Ht. now apply not_elem_of_empty in Ht.
Qed.

Lemma week_is_spec w e : week_is w e = true <-> week e = Some w.
Proof.
  unfold week_is. destruct (week e) as [w'|].
  - rewrite Z.eqb_eq. split; congruence.
  - split; discriminate.
Qed.

(** The three stages, each as a condition on the terms of the stage
    before. *)
Lemma filtered_tags_terms_In selected_tags e :
  In e (filtered_tags_terms terms_list selected_tags) <->
  In e terms_list /\
  (selected_tags = [] \/ shares_tag selected_tags e = true).
Proof.
  unfold filtered_tags_terms. destruct selected_tags as [|t sel].
  - tauto.
  - rewrite filter_In. intuition discriminate.
Qed.

Lemma week_filtered_In selected_tags selected_week e :
  In e (week_filtered terms_list selected_tags selected_week) <->
  In e (filtered_tags_terms terms_list selected_tags) /\
  match selected_week with
  | All => True
  | Week w => week e = Some w
  end.
Proof.
  unfold week_filtered. destruct selected_week as [|w].
  - tauto.
  - rewrite filter_In, week_is_spec. tauto.
Qed.

Lemma filtered_terms_In selected_tags selected_week due_only sched now_iso e :
  In e (filtered_terms terms_list selected_tags selected_week due_only
          sched now_iso) <->
  In e (week_filtered terms_list selected_tags selected_week) /\
  (due_only = true -> is_due sched now_iso e = true).
Proof.
  unfold filtered_terms. destruct due_only.
  - rewrite filter_In. tauto.
  - intuition discriminate.
Qed.

(** C5. Under "Show Only Due Terms", a term without an entry in the
    scheduler mapping passes the due test at every current time, so the
    due filter keeps it whenever the tag and week filters did; with no tag
    and no week selected, every such term of the catalog is in the
    result. *)
Theorem term_without_entry_is_due selected_tags selected_week sched
    now_iso e :
  sched !! term e = None ->
  (In e (week_filtered terms_list selected_tags selected_week) ->
   In e (filtered_terms terms_list selected_tags selected_week true
           sched now_iso)) /\
  (In e terms_list ->
   In e (filtered_terms terms_list [] All true sched now_iso)).
Proof.
  intros Habs. split; intros Hin; apply filtered_terms_In; split; auto;
    intros _; now apply is_due_absent.
Qed.

End FilterFacts.

(** The filters as one condition, and their independence of the order of
    the catalog. With "Show Only Due Terms" off the result is the terms
    that share a tag with a selection that is not empty and whose
    ["week"] key is present and equal to the selected week. *)
Lemma filtered_terms_composition terms_list selected_tags selected_week
    due_only sched now_iso e :
  In e (filtered_terms terms_list selected_tags selected_week due_only
          sched now_iso) <->
  In e terms_list /\
  (selected_tags = [] \/
   exists t, In t (default [] (tags e)) /\ In t selected_tags) /\
  match selected_week with
  | All => True
  | Week w => week e = Some w
  end /\
  (due_only = true -> is_due sched now_iso e = true).
Proof.
  rewrite filtered_terms_In, week_filtered_In, filtered_tags_terms_In,
    shares_tag_spec. tauto.
Qed.

Lemma filtered_terms_permutation l l' selected_tags selected_week due_only
    sched now_iso :
  Permutation l l' ->
  Permutation
    (filtered_terms l selected_tags selected_week due_only sched now_iso)
    (filtered_terms l' selected_tags selected_week due_only sched now_iso).
Proof.
  intros HP.
  assert (Hflt : forall (f : term_record -> bool) a b,
             Permutation a b -> Permutation (List.filter f a) (List.filter f b)).
  { intros f a b Hab. induction Hab; simpl;
      repeat match goal with |- context [if f ?x then _ else _] =>
               destruct (f x) end;
      eauto using Permutation. }
  unfold filtered_terms, week_filtered, filtered_tags_terms.
  destruct due_only, selected_week, selected_tags; auto.
Qed.

(** C6. The tag and week filters on a term without a ["week"] key. Line
    218 reads the week of such a term as 0 and offers "0" in the week
    selectbox; line 227 compares the missing key with the selected week,
    so with "econ" and week "0" selected the term, which has the tag, is
    not in the result. *)
Theorem week_zero_misses_default_week :
  In (Week 0) (week_options small_catalog) /\
  In externality small_catalog /\
  shares_tag ["econ"%string] externality = true /\
  default 0 (week externality) = 0 /\
  filtered_terms small_catalog ["econ"%string] (Week 0) false ∅ EmptyString
  = [].
Proof. vm_compute. repeat split; auto. Qed.


(** ** [SequenceMatcher] on a sequence and itself *)

Module DifflibFacts.
Import Difflib.

(** *** The loops of the model take the turns they are given *)

Section MatchBounds.
Variable sm : matcher.
Variables alo ahi blo bhi : Z.
Hypothesis Ha : alo <= ahi.
Hypothesis Hb : blo <= bhi.

Lemma scan_row_within i L js : forall new bi bj bs,
  alo <= i ->
  row_within alo blo bhi (i - 1) L ->
  row_within alo blo bhi i new ->
  match_within alo (i + 1) blo bhi (bi, bj, bs) ->
  row_within alo blo bhi i (fst (scan_row blo bhi i L js new bi bj bs)) /\
  match_within alo (i + 1) blo bhi
    (snd (scan_row blo bhi i L js new bi bj bs)).
Proof.
  induction js as [|j js IH]; intros new bi bj bs Hi HL Hnew Hbest;
    [now split|].
  simpl. destruct (j <? blo) eqn:E1; [now apply IH|].
  destruct (bhi <=? j) eqn:E2; [now split|].
  apply Z.ltb_ge in E1. apply Z.leb_gt in E2.
  set (k := default 0 (L !! (j - 1)) + 1).
  assert (Hk : 1 <= k /\ alo <= i - k + 1 /\ blo <= j - k + 1).
  { subst k. destruct (L !! (j - 1)) as [k0|] eqn:E; simpl; [|lia].
    destruct (HL _ _ E) as (? & ? & ? & ?). lia. }
  assert (Hnew' : row_within alo blo bhi i (<[j := k]> new)).
  { intros j' k' Hl. destruct (decide (j = j')) as [<-|Hne].
    - rewrite lookup_insert_eq in Hl. injection Hl as <-. lia.
    - rewrite lookup_insert_ne in Hl by exact Hne. now apply Hnew. }
  destruct (bs <? k); apply IH; try assumption.
  unfold match_within. lia.
Qed.

Lemma scan_rows_within : match_within alo ahi blo bhi (scan_rows sm alo ahi blo bhi).
Proof.
  unfold scan_rows.
  set (step := fun (st : gmap Z Z * (Z * Z * Z)) (i : Z) => _).
  assert (H : forall m : nat, alo + Z.of_nat m <= ahi ->
            let st := fold_left step (seqZ alo (Z.of_nat m)) (∅, (alo, blo, 0)) in
            row_within alo blo bhi (alo + Z.of_nat m - 1) (fst st) /\
            match_within alo (alo + Z.of_nat m) blo bhi (snd st)).
  { induction m as [|m IH]; intros Hm.
    - simpl. split; [intros j k H; rewrite lookup_empty in H; discriminate|].
      unfold match_within. lia.
    - replace (Z.of_nat (S m)) with (Z.of_nat m + 1) by lia.
      rewrite seqZ_app, fold_left_app by lia.
      rewrite (seqZ_cons (alo + Z.of_nat m) 1), seqZ_nil by lia.
      destruct (IH ltac:(lia)) as [H1 H2]. cbv zeta in *.
      destruct (fold_left step _ _) as [L [[bi bj] bs]]. simpl in H1, H2.
      simpl. subst step. cbv beta iota.
      replace (alo + (Z.of_nat m + 1) - 1) with (alo + Z.of_nat m) by lia.
      replace (alo + (Z.of_nat m + 1)) with (alo + Z.of_nat m + 1) by lia.
      apply scan_row_within; try assumption; try lia.
      + intros j k H; rewrite lookup_empty in H; discriminate.
      + unfold match_within in *. lia. }
  specialize (H (Z.to_nat (ahi - alo)) ltac:(lia)). cbv zeta in H.
  replace (Z.of_nat (Z.to_nat (ahi - alo))) with (ahi - alo) in H by lia.
  replace (alo + (ahi - alo)) with ahi in H by lia. apply H.
Qed.

Lemma extend_down_within turns junk : forall bi bj bs,
  match_within alo ahi blo bhi (bi, bj, bs) ->
  match_within alo ahi blo bhi (extend_down sm alo blo turns junk bi bj bs).
Proof.
  induction turns as [|turns IH]; intros bi bj bs H; [exact H|].
  cbn [extend_down].
  destruct (alo <? bi) eqn:E1; [|exact H].
  destruct (blo <? bj) eqn:E2; [|exact H]. simpl.
  destruct (match item (sm_b sm) (bj - 1), item (sm_a sm) (bi - 1) with
            | Some y, Some x0 => _ | _, _ => false end); [|exact H].
  apply IH. unfold match_within in *. lia.
Qed.

Lemma extend_up_within turns junk : forall bi bj bs,
  match_within alo ahi blo bhi (bi, bj, bs) ->
  match_within alo ahi blo bhi (extend_up sm ahi bhi turns junk bi bj bs).
Proof.
  induction turns as [|turns IH]; intros bi bj bs H; [exact H|].
  cbn [extend_up].
  destruct (bi + bs <? ahi) eqn:E1; [|exact H].
  destruct (bj + bs <? bhi) eqn:E2; [|exact H]. simpl.
  destruct (match item (sm_b sm) (bj + bs), item (sm_a sm) (bi + bs) with
            | Some y, Some x0 => _ | _, _ => false end); [|exact H].
  apply IH. unfold match_within in *. lia.
Qed.

(** The match that [find_longest_match] returns lies within the region it
    was asked for. *)
Lemma find_longest_match_within :
  match_within alo ahi blo bhi (find_longest_match sm alo ahi blo bhi).
Proof.
  unfold find_longest_match.
  pose proof scan_rows_within as H0.
  destruct (scan_rows sm alo ahi blo bhi) as [[bi bj] bs].
  pose proof (extend_down_within (Z.to_nat (bi - alo)) false _ _ _ H0) as H1.
  destruct (extend_down sm alo blo _ false bi bj bs) as [[bi1 bj1] bs1].
  pose proof (extend_up_within (Z.to_nat (ahi - (bi1 + bs1))) false _ _ _ H1)
    as H2.
  destruct (extend_up sm ahi bhi _ false bi1 bj1 bs1) as [[bi2 bj2] bs2].
  pose proof (extend_down_within (Z.to_nat (bi2 - alo)) true _ _ _ H2) as H3.
  destruct (extend_down sm alo blo _ true bi2 bj2 bs2) as [[bi3 bj3] bs3].
  apply extend_up_within, H3.
Qed.

End MatchBounds.

(** ** The queue of [get_matching_blocks] empties *)

Lemma match_regions_enough sm (turns : nat) :
  forall turns' queue acc,
    queue_ordered queue ->
    (queue_weight queue <= turns)%nat ->
    (queue_weight queue <= turns')%nat ->
    match_regions sm turns queue acc = match_regions sm turns' queue acc.
Proof.
  induction turns as [|turns IH]; intros turns' queue acc Hq Ht Ht'.
  - destruct queue as [|[[[alo ahi] blo] bhi] queue]; simpl in Ht; [|lia].
    now destruct turns'.
  - destruct queue as [|[[[alo ahi] blo] bhi] queue].
    { now destruct turns'. }
    simpl in Ht, Ht'. destruct turns' as [|turns']; [lia|].
    apply Forall_cons_1 in Hq as [[Ha Hb] Hq].
    cbn [match_regions].
    pose proof (find_longest_match_within sm alo ahi blo bhi Ha Hb) as Hm.
    destruct (find_longest_match sm alo ahi blo bhi) as [[i j] k].
    unfold match_within in Hm.
    destruct (k =? 0) eqn:Ek; [apply IH; [assumption|lia..]|].
    apply Z.eqb_neq in Ek.
    destruct ((alo <? i) && (blo <? j)) eqn:E1;
      destruct ((i + k <? ahi) && (j + k <? bhi)) eqn:E2;
      apply IH; repeat apply Forall_cons_2; try assumption;
      simpl; lia.
Qed.

(** More turns than [2 * len(a) + 1] change nothing: by then the loop
    [while queue] has ended. *)
Lemma get_matching_blocks_turns sm (turns : nat) :
  (2 * length (sm_a sm) + 1 <= turns)%nat ->
  match_regions sm turns
    [(0, Z.of_nat (length (sm_a sm)), 0, Z.of_nat (length (sm_b sm)))] []
  = match_regions sm (2 * length (sm_a sm) + 1)
      [(0, Z.of_nat (length (sm_a sm)), 0, Z.of_nat (length (sm_b sm)))] [].
Proof.
  intros H. apply match_regions_enough.
  - repeat constructor; lia.
  - simpl. lia.
  - simpl. lia.
Qed.

(** The same for the loops that grow a match: once [besti] has come down
    to [alo], or [besti + bestsize] up to [ahi], further turns change
    nothing. *)
Lemma extend_down_enough sm alo blo junk (turns : nat) :
  forall turns' bi bj bs,
    (Z.to_nat (bi - alo) <= turns)%nat ->
    (Z.to_nat (bi - alo) <= turns')%nat ->
    extend_down sm alo blo turns junk bi bj bs
    = extend_down sm alo blo turns' junk bi bj bs.
Proof.
  induction turns as [|turns IH]; intros turns' bi bj bs Ht Ht'.
  - destruct turns' as [|turns']; [reflexivity|]. cbn [extend_down].
    destruct (alo <? bi) eqn:E; [lia|reflexivity].
  - destruct turns' as [|turns']; cbn [extend_down];
      destruct (alo <? bi) eqn:E; try reflexivity; try lia.
    destruct (blo <? bj); [|reflexivity]. simpl.
    destruct (match item (sm_b sm) (bj - 1), item (sm_a sm) (bi - 1) with
              | Some y, Some x0 => _ | _, _ => false end); [|reflexivity].
    apply IH; lia.
Qed.

Lemma extend_up_enough sm ahi bhi junk (turns : nat) :
  forall turns' bi bj bs,
    (Z.to_nat (ahi - (bi + bs)) <= turns)%nat ->
    (Z.to_nat (ahi - (bi + bs)) <= turns')%nat ->
    extend_up sm ahi bhi turns junk bi bj bs
    = extend_up sm ahi bhi turns' junk bi bj bs.
Proof.
  induction turns as [|turns IH]; intros turns' bi bj bs Ht Ht'.
  - destruct turns' as [|turns']; [reflexivity|]. cbn [extend_up].
    destruct (bi + bs <? ahi) eqn:E; [lia|reflexivity].
  - destruct turns' as [|turns']; cbn [extend_up];
      destruct (bi + bs <? ahi) eqn:E; try reflexivity; try lia.
    destruct (bj + bs <? bhi); [|reflexivity]. simpl.
    destruct (match item (sm_b sm) (bj + bs), item (sm_a sm) (bi + bs) with
              | Some y, Some x0 => _ | _, _ => false end); [|reflexivity].
    apply IH; lia.
Qed.

(** *** The rows of [b2j] *)

Lemma index_elements_lookup b : forall i m c,
  default [] (index_elements b i m !! c)
  = default [] (m !! c) ++ positions c b i.
Proof.
  induction b as [|elt b IH]; intros i m c; simpl.
  - now rewrite app_nil_r.
  - rewrite IH. destruct (decide (elt = c)) as [->|Hne].
    + rewrite lookup_insert_eq. simpl. now rewrite <- app_assoc.
    + rewrite lookup_insert_ne by exact Hne. reflexivity.
Qed.

Lemma row_cases b c : row b c = [] \/ row b c = positions c b 0.
Proof.
  unfold row, chain_b.
  pose proof (index_elements_lookup b 0 ∅ c) as H.
  rewrite lookup_empty in H. simpl in H.
  destruct (200 <=? Z.of_nat (length b)); [|now right].
  rewrite map_lookup_filter.
  destruct (index_elements b 0 ∅ !! c) as [l|]; simpl in *; [|now left].
  case_guard; simpl; [now right|now left].
Qed.

Lemma positions_bounds c b : forall i j,
  In j (positions c b i) -> i <= j < i + Z.of_nat (length b).
Proof.
  induction b as [|elt b IH]; intros i j; simpl; [tauto|].
  rewrite in_app_iff. intros [H|H].
  - destruct (decide (elt = c)); simpl in H; [|tauto].
    destruct H as [<-|[]]. lia.
  - apply IH in H. lia.
Qed.

Lemma positions_In c b : forall i j,
  In j (positions c b i) <->
  i <= j /\ b !! Z.to_nat (j - i) = Some c.
Proof.
  induction b as [|elt b IH]; intros i j; simpl.
  - split; [tauto|]. intros [_ H]. discriminate.
  - rewrite in_app_iff, IH. split.
    + intros [H|[H1 H2]].
      * destruct (decide (elt = c)) as [->|]; simpl in H; [|tauto].
        destruct H as [<-|[]]. rewrite Z.sub_diag. simpl. split; [lia|done].
      * split; [lia|].
        replace (Z.to_nat (j - i)) with (S (Z.to_nat (j - (i + 1)))) by lia.
        exact H2.
    + intros [H1 H2].
      destruct (Z.eq_dec j i) as [->|Hne].
      * left. rewrite Z.sub_diag in H2. simpl in H2. injection H2 as ->.
        rewrite decide_True by done. now left.
      * right. split; [lia|].
        replace (Z.to_nat (j - i)) with (S (Z.to_nat (j - (i + 1)))) in H2
          by lia.
        exact H2.
Qed.

(** The row of the element at [t] splits at [t]. *)
Lemma positions_split c b : forall i (t : nat),
  b !! t = Some c ->
  exists l1 l2,
    positions c b i = l1 ++ (i + Z.of_nat t) :: l2 /\
    (forall j, In j l1 -> In j (positions c b i) /\ j < i + Z.of_nat t) /\
    (forall j, In j l2 -> In j (positions c b i) /\ i + Z.of_nat t < j).
Proof.
  induction b as [|elt b IH]; intros i t Ht; [discriminate|].
  destruct t as [|t]; simpl in *.
  - injection Ht as ->. rewrite decide_True by done.
    exists [], (positions c b (i + 1)). simpl. rewrite Z.add_0_r.
    split; [reflexivity|]. split; [tauto|].
    intros j Hj. split; [now right|]. apply positions_bounds in Hj. lia.
  - destruct (IH (i + 1) t Ht) as (l1 & l2 & E & H1 & H2).
    exists ((if decide (elt = c) then [i] else []) ++ l1), l2.
    split.
    { rewrite E, <- app_assoc.
      now replace (i + Z.of_nat (S t)) with (i + 1 + Z.of_nat t) by lia. }
    split.
    + intros j Hj. rewrite in_app_iff in Hj. destruct Hj as [Hj|Hj].
      * destruct (decide (elt = c)); simpl in Hj; [|tauto].
        destruct Hj as [<-|[]]. split; [|lia]. apply in_app_iff. left.
        now left.
      * apply H1 in Hj as [Hj ?]. split; [|lia].
        apply in_app_iff. right. exact Hj.
    + intros j Hj. apply H2 in Hj as [Hj ?]. split; [|lia].
      apply in_app_iff. right. exact Hj.
Qed.

Section SelfMatch.
Variable x : list ascii.

Lemma run_eq i j :
  run x i j =
  match x !! i, x !! j with
  | Some c, Some c' =>
      if bool_decide (c = c') && kept x c then
        1 + match i, j with
            | S i', S j' => run x i' j'
            | _, _ => 0
            end
      else 0
  | _, _ => 0
  end.
Proof. destruct i; reflexivity. Qed.

Lemma run_nonneg i : forall j, 0 <= run x i j.
Proof.
  induction i as [|i IH]; intros j; rewrite run_eq;
    destruct (x !! _) as [c|]; try lia;
    destruct (x !! j) as [c'|]; try lia;
    destruct (bool_decide (c = c') && kept x c); try lia.
  destruct j as [|j]; [lia|]. specialize (IH j). lia.
Qed.

Lemma run_diag i c :
  x !! i = Some c -> kept x c = true ->
  run x i i = 1 + match i with S i' => run x i' i' | O => 0 end.
Proof.
  intros Hc Hk. rewrite run_eq, Hc, bool_decide_eq_true_2, Hk by done.
  simpl. destruct i; reflexivity.
Qed.

Lemma run_le_diag_l i : forall j, run x i j <= run x i i.
Proof.
  induction i as [|i IH]; intros j; rewrite run_eq;
    destruct (x !! _) as [c|] eqn:Ei; try apply run_nonneg;
    destruct (x !! j) as [c'|] eqn:Ej; try apply run_nonneg;
    destruct (bool_decide (c = c') && kept x c) eqn:E; try apply run_nonneg;
    apply andb_true_iff in E as [_ Hk];
    rewrite (run_diag _ c Ei Hk).
  - lia.
  - destruct j as [|j]; [pose proof (run_nonneg i i); lia|].
    specialize (IH j). lia.
Qed.

Lemma run_le_diag_r i : forall j, run x i j <= run x j j.
Proof.
  induction i as [|i IH]; intros j; rewrite run_eq;
    destruct (x !! _) as [c|] eqn:Ei; try apply run_nonneg;
    destruct (x !! j) as [c'|] eqn:Ej; try apply run_nonneg;
    destruct (bool_decide (c = c') && kept x c) eqn:E; try apply run_nonneg;
    apply andb_true_iff in E as [Hc Hk];
    apply bool_decide_eq_true in Hc; subst c';
    rewrite (run_diag _ c Ej Hk).
  - destruct j as [|j]; [lia|]. pose proof (run_nonneg j j). lia.
  - destruct j as [|j]; [lia|]. specialize (IH j). lia.
Qed.

Lemma run_diag_bound i : run x i i <= Z.of_nat i + 1.
Proof.
  induction i as [|i IH]; rewrite run_eq;
    destruct (x !! _) as [c|]; try lia;
    destruct (bool_decide (c = c) && kept x c); lia.
Qed.

Lemma runZ_nonneg i j : 0 <= runZ x i j.
Proof.
  unfold runZ. destruct ((i <? 0) || (j <? 0)); [lia|apply run_nonneg].
Qed.

Lemma runZ_neg i j : i < 0 \/ j < 0 -> runZ x i j = 0.
Proof.
  intros H. unfold runZ.
  destruct (i <? 0) eqn:E1; [reflexivity|].
  destruct (j <? 0) eqn:E2; [reflexivity|]. lia.
Qed.

Lemma runZ_run i j :
  0 <= i -> 0 <= j -> runZ x i j = run x (Z.to_nat i) (Z.to_nat j).
Proof.
  intros Hi Hj. unfold runZ.
  destruct (i <? 0) eqn:E1; [lia|]. destruct (j <? 0) eqn:E2; [lia|].
  reflexivity.
Qed.

(** Where the two elements are equal and kept, the run goes on. *)
Lemma runZ_step i j c :
  0 <= i -> 0 <= j ->
  x !! Z.to_nat i = Some c -> x !! Z.to_nat j = Some c -> kept x c = true ->
  runZ x i j = runZ x (i - 1) (j - 1) + 1.
Proof.
  intros Hi Hj Ei Ej Hk. rewrite (runZ_run i j Hi Hj), run_eq, Ei, Ej.
  rewrite bool_decide_eq_true_2, Hk by done. simpl.
  destruct (Z.to_nat i) as [|i'] eqn:Ni.
  { rewrite runZ_neg by lia. lia. }
  destruct (Z.to_nat j) as [|j'] eqn:Nj.
  { rewrite runZ_neg by lia. lia. }
  rewrite runZ_run by lia.
  replace (Z.to_nat (i - 1)) with i' by lia.
  replace (Z.to_nat (j - 1)) with j' by lia. lia.
Qed.

(** Elsewhere it is 0. *)
Lemma runZ_stop i j c :
  x !! Z.to_nat i = Some c ->
  (kept x c = false \/ j < 0 \/ x !! Z.to_nat j <> Some c) ->
  runZ x i j = 0.
Proof.
  intros Ei H. unfold runZ.
  destruct ((i <? 0) || (j <? 0)) eqn:E; [reflexivity|].
  apply orb_false_iff in E as [_ E2]. apply Z.ltb_ge in E2.
  rewrite run_eq, Ei. destruct (x !! Z.to_nat j) as [c'|] eqn:Ej; [|done].
  destruct (bool_decide (c = c')) eqn:Ec; [|done].
  apply bool_decide_eq_true in Ec. subst c'.
  destruct H as [->|[H|H]]; [done|lia|congruence].
Qed.

Lemma runZ_le_diag_l i j : 0 <= i -> runZ x i j <= runZ x i i.
Proof.
  intros Hi. destruct (Z.lt_ge_cases j 0).
  - rewrite (runZ_neg i j) by lia. apply runZ_nonneg.
  - rewrite !runZ_run by lia. apply run_le_diag_l.
Qed.

Lemma runZ_le_diag_r i j : 0 <= j -> runZ x i j <= runZ x j j.
Proof.
  intros Hj. destruct (Z.lt_ge_cases i 0).
  - rewrite (runZ_neg i j) by lia. apply runZ_nonneg.
  - rewrite !runZ_run by lia. apply run_le_diag_r.
Qed.

Lemma runZ_diag_bound i : 0 <= i -> runZ x i i <= i + 1.
Proof.
  intros Hi. rewrite runZ_run by lia.
  pose proof (run_diag_bound (Z.to_nat i)). lia.
Qed.

End SelfMatch.

(** ** One row of [find_longest_match] *)

Lemma fill_lookup_In L l : forall new j,
  In j l -> fill L l new !! j = Some (next_len L j).
Proof.
  induction l as [|a l IH] using rev_ind; intros new j Hj; [destruct Hj|].
  unfold fill. rewrite fold_left_app. simpl.
  destruct (decide (a = j)) as [->|Hne].
  - apply lookup_insert_eq.
  - rewrite lookup_insert_ne by exact Hne. apply IH.
    apply in_app_iff in Hj as [Hj|[Hj|[]]]; [exact Hj|congruence].
Qed.

Lemma fill_lookup_not_In L l : forall new j,
  ~ In j l -> fill L l new !! j = new !! j.
Proof.
  induction l as [|a l IH]; intros new j Hj; [reflexivity|].
  simpl. rewrite IH by (intros H; apply Hj; now right).
  apply lookup_insert_ne. intros ->. apply Hj. now left.
Qed.

Section ScanRow.
Variables (blo bhi i : Z) (L : gmap Z Z).

Lemma scan_row_fst l : forall new bi bj bs,
  (forall j, In j l -> blo <= j < bhi) ->
  fst (scan_row blo bhi i L l new bi bj bs) = fill L l new.
Proof.
  induction l as [|j l IH]; intros new bi bj bs Hl; [reflexivity|].
  assert (Hj : blo <= j < bhi) by (apply Hl; now left).
  assert (Hl' : forall j', In j' l -> blo <= j' < bhi)
    by (intros j' H; apply Hl; now right).
  simpl. destruct (j <? blo) eqn:E1; [lia|].
  destruct (bhi <=? j) eqn:E2; [lia|].
  fold (next_len L j).
  destruct (bs <? next_len L j); now rewrite IH.
Qed.

Lemma scan_row_snd_app l1 : forall l2 new bi bj bs,
  (forall j, In j l1 -> blo <= j < bhi /\ next_len L j <= bs) ->
  snd (scan_row blo bhi i L (l1 ++ l2) new bi bj bs)
  = snd (scan_row blo bhi i L l2 (fill L l1 new) bi bj bs).
Proof.
  induction l1 as [|j l1 IH]; intros l2 new bi bj bs Hl; [reflexivity|].
  destruct (Hl j) as [Hj Hk]; [now left|].
  simpl. destruct (j <? blo) eqn:E1; [lia|].
  destruct (bhi <=? j) eqn:E2; [lia|].
  fold (next_len L j).
  destruct (bs <? next_len L j) eqn:E3; [lia|].
  apply IH. intros j' H. apply Hl. now right.
Qed.

Lemma scan_row_snd_skip l new bi bj bs :
  (forall j, In j l -> blo <= j < bhi /\ next_len L j <= bs) ->
  snd (scan_row blo bhi i L l new bi bj bs) = (bi, bj, bs).
Proof.
  intros Hl. rewrite <- (app_nil_r l).
  rewrite scan_row_snd_app by exact Hl. reflexivity.
Qed.

End ScanRow.

Lemma item_lookup (s : list ascii) (i : Z) :
  0 <= i -> item s i = s !! Z.to_nat i.
Proof. intros H. unfold item. destruct (i <? 0) eqn:E; [lia|done]. Qed.

(** ** The rows of a sequence matched against itself *)

Section SelfScan.
Variable x : list ascii.
Let n : Z := Z.of_nat (length x).

Lemma row_step_inv m st :
  0 <= m < n -> rows_inv x m st -> rows_inv x (m + 1) (row_step x st m).
Proof.
  intros Hm. destruct st as [L [[bi bj] bs]].
  intros (I1 & (Hd & Hbi & Hbs & Hsum) & I3).
  unfold row_step. fold n. rewrite item_lookup by lia.
  destruct (lookup_lt_is_Some_2 x (Z.to_nat m)) as [c Hc]; [subst n; lia|].
  rewrite Hc. simpl. fold (row x c).
  assert (Hnext : forall j, 0 <= j -> x !! Z.to_nat j = Some c ->
                            kept x c = true -> next_len L j = runZ x m j).
  { intros j Hj Ej Hk. unfold next_len. rewrite I1.
    now rewrite (runZ_step x m j c) by (try lia; assumption). }
  destruct (row_cases x c) as [Hrow|Hrow].
  - (* no row: the element is popular *)
    assert (Hk : kept x c = false) by (unfold kept; now rewrite Hrow).
    rewrite Hrow. simpl. replace (m + 1 - 1) with m by lia.
    split; [|split].
    + intros j. rewrite lookup_empty. simpl. symmetry.
      apply (runZ_stop x m j c Hc). now left.
    + repeat split; lia.
    + intros t Ht. destruct (Z.eq_dec t m) as [->|].
      * rewrite (runZ_stop x m m c Hc) by now left. lia.
      * apply I3. lia.
  - destruct (positions_split c x 0 (Z.to_nat m) Hc) as (l1 & l2 & E & H1 & H2).
    replace (0 + Z.of_nat (Z.to_nat m)) with m in * by lia.
    assert (Hk : kept x c = true) by (unfold kept; rewrite Hrow, E; now destruct l1).
    assert (Hin : forall j, In j (positions c x 0) ->
                            0 <= j < n /\ x !! Z.to_nat j = Some c).
    { intros j Hj. pose proof (positions_bounds _ _ _ _ Hj).
      apply positions_In in Hj as [_ Hj]. rewrite Z.sub_0_r in Hj.
      split; [subst n; lia|exact Hj]. }
    assert (Hmap : fst (scan_row 0 n m L (row x c) ∅ bi bj bs)
                   = fill L (positions c x 0) ∅).
    { rewrite Hrow. apply scan_row_fst. intros j Hj. now apply Hin. }
    set (k := runZ x m m).
    assert (Hkm : next_len L m = k) by (apply Hnext; [lia|assumption..]).
    assert (Hbest : snd (scan_row 0 n m L (row x c) ∅ bi bj bs)
                    = if bs <? k then (m - k + 1, m - k + 1, k)
                      else (bi, bj, bs)).
    { rewrite Hrow, E, scan_row_snd_app.
      2:{ intros j Hj. destruct (H1 j Hj) as [Hp Hlt].
          destruct (Hin j Hp) as [Hr Ej]. split; [exact Hr|].
          rewrite (Hnext j) by (try lia; assumption).
          etransitivity; [apply runZ_le_diag_r; lia|apply I3; lia]. }
      simpl. destruct (m <? 0) eqn:E1; [lia|].
      destruct (n <=? m) eqn:E2; [lia|].
      fold (next_len L m). rewrite Hkm.
      destruct (bs <? k) eqn:E3.
      - apply scan_row_snd_skip. intros j Hj. destruct (H2 j Hj) as [Hp Hlt].
        destruct (Hin j Hp) as [Hr Ej]. split; [exact Hr|].
        rewrite (Hnext j) by (try lia; assumption).
        apply runZ_le_diag_l. lia.
      - apply scan_row_snd_skip. intros j Hj. destruct (H2 j Hj) as [Hp Hlt].
        destruct (Hin j Hp) as [Hr Ej]. split; [exact Hr|].
        rewrite (Hnext j) by (try lia; assumption).
        apply Z.ltb_ge in E3.
        etransitivity; [apply runZ_le_diag_l; lia|exact E3]. }
    destruct (scan_row 0 n m L (row x c) ∅ bi bj bs) as [L' best'].
    simpl in Hmap, Hbest. subst L' best'.
    assert (Hm1 : m + 1 - 1 = m) by lia.
    pose proof (runZ_diag_bound x m ltac:(lia)) as Hkb.
    pose proof (runZ_nonneg x m m) as Hk0. fold k in Hkb, Hk0.
    assert (HI1 : forall j, default 0 (fill L (positions c x 0) ∅ !! j)
                            = runZ x m j).
    { intros j. destruct (in_dec Z.eq_dec j (positions c x 0)) as [Hj|Hj].
      - rewrite fill_lookup_In by exact Hj. simpl.
        destruct (Hin j Hj) as [Hr Ej]. apply Hnext; [lia|assumption..].
      - rewrite fill_lookup_not_In, lookup_empty by exact Hj. simpl.
        symmetry. apply (runZ_stop x m j c Hc). right.
        destruct (Z.lt_ge_cases j 0); [now left|right].
        intros Ej. apply Hj, positions_In. rewrite Z.sub_0_r. auto. }
    destruct (bs <? k) eqn:E3; unfold rows_inv; rewrite Hm1.
    + split; [exact HI1|]. split; [repeat split; lia|].
      intros t Ht. destruct (Z.eq_dec t m) as [->|]; [fold k; lia|].
      apply Z.ltb_lt in E3. specialize (I3 t ltac:(lia)). lia.
    + split; [exact HI1|]. split; [repeat split; lia|].
      intros t Ht. apply Z.ltb_ge in E3.
      destruct (Z.eq_dec t m) as [->|]; [fold k; lia|]. apply I3. lia.
Qed.

Lemma rows_fold_inv (m : nat) :
  Z.of_nat m <= n ->
  rows_inv x (Z.of_nat m)
    (fold_left (row_step x) (seqZ 0 (Z.of_nat m)) (∅, (0, 0, 0))).
Proof.
  induction m as [|m IH]; intros Hm.
  - simpl. split; [|split].
    + intros j. rewrite lookup_empty. simpl. symmetry. apply runZ_neg. lia.
    + repeat split; lia.
    + intros t Ht. lia.
  - replace (Z.of_nat (S m)) with (Z.of_nat m + 1) by lia.
    rewrite seqZ_app, fold_left_app by lia.
    rewrite (seqZ_cons (0 + Z.of_nat m) 1), seqZ_nil by lia. simpl.
    apply row_step_inv; [lia|]. apply IH. lia.
Qed.

End SelfScan.

(** ** The longest match of a sequence with itself *)

Section SelfLongest.
Variable x : list ascii.
Let n : Z := Z.of_nat (length x).
Let sm : matcher := SequenceMatcher x x.

Lemma scan_rows_self :
  exists bi bs,
    scan_rows sm 0 n 0 n = (bi, bi, bs) /\
    0 <= bi /\ 0 <= bs /\ bi + bs <= n.
Proof.
  pose proof (rows_fold_inv x (length x) (Z.le_refl _)) as H.
  unfold scan_rows. rewrite Z.sub_0_r.
  change (fold_left _ (seqZ 0 n) (∅, (0, 0, 0)))
    with (fold_left (row_step x) (seqZ 0 (Z.of_nat (length x)))
            (∅, (0, 0, 0))).
  destruct (fold_left (row_step x) _ _) as [L [[bi bj] bs]].
  destruct H as (_ & (-> & ? & ? & ?) & _).
  exists bj, bs. simpl. repeat split; lia.
Qed.

Lemma item_self i : 0 <= i < n -> exists c, item x i = Some c.
Proof.
  intros Hi. rewrite item_lookup by lia.
  apply lookup_lt_is_Some_2. subst n. lia.
Qed.

Lemma extend_down_self (turns : nat) : forall bi bs,
  Z.of_nat turns = bi -> bi <= n ->
  extend_down sm 0 0 turns false bi bi bs = (0, 0, bs + bi).
Proof.
  induction turns as [|turns IH]; intros bi bs Ht Hn.
  - simpl. subst bi. simpl. now rewrite Z.add_0_r.
  - cbn [extend_down]. destruct (0 <? bi) eqn:E; [|lia]. simpl.
    destruct (item_self (bi - 1)) as [c Hc]; [lia|].
    change (sm_b sm) with x. change (sm_a sm) with x. rewrite Hc.
    rewrite bool_decide_eq_true_2 by done. simpl.
    rewrite IH by lia. f_equal. lia.
Qed.

Lemma extend_up_self (turns : nat) : forall bs,
  0 <= bs -> Z.of_nat turns = n - bs ->
  extend_up sm n n turns false 0 0 bs = (0, 0, n).
Proof.
  induction turns as [|turns IH]; intros bs H0 Ht.
  - simpl. f_equal. lia.
  - cbn [extend_up]. rewrite !Z.add_0_l.
    destruct (bs <? n) eqn:E; [|lia]. simpl.
    destruct (item_self bs) as [c Hc]; [lia|].
    change (sm_b sm) with x. change (sm_a sm) with x. rewrite Hc.
    rewrite bool_decide_eq_true_2 by done. simpl.
    apply IH; lia.
Qed.

(** On the whole of both sequences the longest match is the whole. *)
Lemma find_longest_match_self : find_longest_match sm 0 n 0 n = (0, 0, n).
Proof.
  unfold find_longest_match.
  destruct scan_rows_self as (bi & bs & -> & Hbi & Hbs & Hsum).
  rewrite Z.sub_0_r, extend_down_self by lia.
  rewrite !Z.add_0_l, extend_up_self by lia.
  rewrite Z.sub_diag. change (Z.to_nat 0) with 0%nat. cbn [extend_down].
  replace (n - (0 + n)) with 0 by lia. reflexivity.
Qed.

Lemma merge_sort_singleton (t : Z * Z * Z) : merge_sort triple_le [t] = [t].
Proof. reflexivity. Qed.

Lemma get_matching_blocks_self :
  0 < n -> get_matching_blocks sm = [(0, 0, n); (n, n, 0)].
Proof.
  intros Hn. unfold get_matching_blocks.
  change (sm_a sm) with x. change (sm_b sm) with x. fold n.
  replace (2 * length x + 1)%nat with (S (2 * length x)) by lia.
  cbn [match_regions]. fold sm. rewrite find_longest_match_self.
  destruct (n =? 0) eqn:E0; [lia|].
  rewrite Z.add_0_l, !Z.ltb_irrefl. simpl andb. cbv iota.
  assert (Hend : forall t acc, match_regions sm t [] acc = acc)
    by (intros [|t] acc; reflexivity).
  rewrite Hend, app_nil_l, merge_sort_singleton.
  cbn [collapse]. change (0 + 0 =? 0) with true. rewrite Z.add_0_l, E0.
  reflexivity.
Qed.

Lemma ratio_self : n < 2 ^ 1022 -> ratio sm = inr PyFloat.lit_1_0.
Proof.
  intros Hn. unfold ratio. change (sm_a sm) with x. change (sm_b sm) with x.
  fold n. destruct (Z.eq_dec n 0) as [E|E].
  - rewrite E. reflexivity.
  - rewrite get_matching_blocks_self by lia. simpl.
    rewrite Z.add_0_r. apply PyFloatExact.calculate_ratio_self. lia.
Qed.

End SelfLongest.

End DifflibFacts.

(** ** The answer check *)

Module PyStrFacts.
Import PyStr.

Lemma lower_char_idempotent c : lower_char (lower_char c) = lower_char c.
Proof. destruct c as [[] [] [] [] [] [] [] []]; reflexivity. Qed.

Lemma isspace_lower_char c : isspace (lower_char c) = isspace c.
Proof. destruct c as [[] [] [] [] [] [] [] []]; reflexivity. Qed.

Lemma lower_idempotent s : lower (lower s) = lower s.
Proof.
  unfold lower. rewrite map_map. apply map_ext, lower_char_idempotent.
Qed.

Lemma lower_blank s : blank s -> blank (lower s).
Proof.
  unfold blank, lower. induction 1 as [|c s Hc _ IH]; simpl; constructor.
  - now rewrite isspace_lower_char.
  - exact IH.
Qed.

Lemma lstrip_blank_app ws s : blank ws -> lstrip (ws ++ s) = lstrip s.
Proof.
  induction 1 as [|c ws Hc _ IH]; [reflexivity|].
  simpl. now rewrite Hc.
Qed.

Lemma lstrip_blank ws : blank ws -> lstrip ws = [].
Proof.
  intros H. rewrite <- (app_nil_r ws). now rewrite lstrip_blank_app.
Qed.

Lemma rstrip_app_blank s ws : blank ws -> rstrip (s ++ ws) = rstrip s.
Proof.
  intros H. unfold rstrip. rewrite rev_app_distr, lstrip_blank_app; [done|].
  now apply List.Forall_rev.
Qed.

Lemma strip_blank_app ws s ws' :
  blank ws -> blank ws' -> strip (ws ++ s ++ ws') = strip s.
Proof.
  intros H H'. unfold strip. rewrite lstrip_blank_app by exact H.
  induction s as [|c s IH]; simpl.
  - now rewrite lstrip_blank.
  - destruct (isspace c); [exact IH|].
    change (c :: s ++ ws') with ((c :: s) ++ ws').
    now rewrite rstrip_app_blank.
Qed.

Lemma lstrip_length s : (length (lstrip s) <= length s)%nat.
Proof.
  induction s as [|c s IH]; simpl; [lia|].
  destruct (isspace c); simpl; lia.
Qed.

Lemma strip_length s : (length (strip s) <= length s)%nat.
Proof.
  unfold strip, rstrip. rewrite length_rev.
  etransitivity; [apply lstrip_length|]. rewrite length_rev.
  apply lstrip_length.
Qed.

Lemma list_ascii_of_string_app s t :
  list_ascii_of_string (String.append s t)
  = list_ascii_of_string s ++ list_ascii_of_string t.
Proof. induction s as [|c s IH]; simpl; [done|now rewrite IH]. Qed.

Lemma list_ascii_of_string_length s :
  length (list_ascii_of_string s) = String.length s.
Proof. induction s as [|c s IH]; simpl; [done|now rewrite IH]. Qed.

Lemma normalized_length s : (length (normalized s) <= String.length s)%nat.
Proof.
  unfold normalized. etransitivity; [apply strip_length|].
  unfold lower. now rewrite length_map, list_ascii_of_string_length.
Qed.

Lemma normalized_blank_app ws s ws' :
  blank (list_ascii_of_string ws) -> blank (list_ascii_of_string ws') ->
  normalized (String.append ws (String.append s ws')) = normalized s.
Proof.
  intros H H'. unfold normalized.
  rewrite !list_ascii_of_string_app. unfold lower. rewrite !map_app.
  apply strip_blank_app; now apply lower_blank.
Qed.

End PyStrFacts.

(** C7. The score of a text against itself is 1.0, for every text,
    the empty one included, whose length doubled is still a finite float
    (fewer than 2^1022 code points; a CPython [str] has at most
    2^63 - 1); the score depends on each text only through its lowered
    and stripped form, so it does not change when blanks are put before or
    after a text, and [score " Foo " "foo"] is [score "foo" "foo"]. *)
Theorem score_identity_and_normalization :
  (forall x, Z.of_nat (String.length x) < 2 ^ 1022 ->
             score x x = inr PyFloat.lit_1_0) /\
  (forall a a' b b', normalized a = normalized a' ->
                     normalized b = normalized b' ->
                     score a b = score a' b') /\
  (forall ws ws' a b,
     PyStr.blank (list_ascii_of_string ws) -> PyStr.blank (list_ascii_of_string ws') ->
     score (String.append ws (String.append a ws')) b = score a b /\
     score b (String.append ws (String.append a ws')) = score b a) /\
  score " Foo " "foo" = score "foo" "foo".
Proof.
  split; [|split; [|split]].
  - intros x Hx. apply DifflibFacts.ratio_self.
    pose proof (PyStrFacts.normalized_length x). unfold normalized in *. lia.
  - intros a a' b b' Ha Hb. unfold score. fold (normalized a) (normalized b)
      (normalized a') (normalized b'). now rewrite Ha, Hb.
  - intros ws ws' a b H H'. unfold score.
    fold (normalized (String.append ws (String.append a ws'))).
    rewrite PyStrFacts.normalized_blank_app by assumption. split; reflexivity.
  - reflexivity.
Qed.

(** ** The statements at concrete inputs *)

Lemma logical_codec_round_trip : JsonRoundTrip logical_codec.
Proof.
  split.
  - intros d text H. injection H as <-. reflexivity.
  - intros d text err H. discriminate H.
Qed.

Lemma fresh_world_ease_invariant : ease_invariant fresh_world.
Proof.
  split; intros t en H; simpl in H; rewrite lookup_empty in H;
    discriminate.
Defined.

Lemma schedule_next_lapse_witness :
  0 < 3 /\
  clock_2024 1 = inr "2024-03-02T09:30:00.250000"%string /\
  exists en,
    scheduler (after (schedule_next "Y" 0 clock_2024 reviewed_world))
      !! "Y"%string = Some en /\
    e_repetitions en = 0 /\
    e_interval en = 1 /\
    e_ef en = e_ef (prior_entry reviewed_world "Y") /\
    e_next_due en = Some "2024-03-02T09:30:00.250000"%string.
Proof.
  split; [lia|]. split; [reflexivity|].
  apply (schedule_next_lapse reviewed_world "Y" 0 clock_2024);
    [lia | reflexivity].
Defined.

(** C2, as the specification has it, fails: after thirteen perfect reviews
    in a row the entry of "X" has interval 2714533 and repetitions 13; a
    fourteenth call with quality 5 has the new interval 10586678, whose day
    [datetime] cannot name, so the call raises OverflowError at line 100 and
    the entry keeps its repetitions, its interval and its ease factor. *)
Lemma schedule_next_success_fails_beyond_datetime :
  3 <= 5 <= 5 /\
  e_interval (prior_entry drilled_world "X") = 2714533 /\
  e_repetitions (prior_entry drilled_world "X") = 13 /\
  spec_interval 2714533 14
    (spec_ease (e_ef (prior_entry drilled_world "X")) 5) = Some 10586678 /\
  schedule_next "X" 5 clock_2024 drilled_world
  = (inl OverflowError, drilled_world) /\
  e_repetitions
    (prior_entry (after (schedule_next "X" 5 clock_2024 drilled_world)) "X")
  <> 13 + 1 /\
  e_interval
    (prior_entry (after (schedule_next "X" 5 clock_2024 drilled_world)) "X")
  <> 10586678 /\
  e_ef
    (prior_entry (after (schedule_next "X" 5 clock_2024 drilled_world)) "X")
  <> spec_ease (e_ef (prior_entry drilled_world "X")) 5.
Proof. vm_compute. repeat split; try discriminate; intros [? ?]; lia. Qed.

Lemma schedule_next_success_witness :
  3 <= 4 <= 5 /\
  0 <= e_interval
         (prior_entry (after (schedule_next "Y" 5 clock_2024 reviewed_world))
            "Y") /\
  commits (after (schedule_next "Y" 5 clock_2024 reviewed_world)) "Y"
    {| e_interval := 16;
       e_repetitions := 3;
       e_ef :=
         spec_ease
           (e_ef (prior_entry
                    (after (schedule_next "Y" 5 clock_2024 reviewed_world))
                    "Y")) 4;
       e_next_due := Some "2024-03-17T09:30:00.250000"%string |}
    (schedule_next "Y" 4 clock_2024
       (after (schedule_next "Y" 5 clock_2024 reviewed_world))) /\
  schedule_next "X" 5 clock_2024 drilled_world
  = (inl OverflowError, drilled_world).
Proof.
  split; [lia|]. split; [vm_compute; discriminate|]. split.
  - exact (schedule_next_success
             (after (schedule_next "Y" 5 clock_2024 reviewed_world))
             "Y" 4 clock_2024 ltac:(lia) ltac:(vm_compute; discriminate)).
  - exact (schedule_next_success drilled_world "X" 5 clock_2024
             ltac:(lia) ltac:(vm_compute; discriminate)).
Defined.

Lemma ease_factor_never_below_1_3_witness :
  ease_invariant
    (run_calls [Call "X" 5 clock_2024; Call "X" 0 clock_2024;
                Call "Y" 3 clock_2024; Call "X" 9 clock_2024;
                Call "X" (-2) clock_2024] fresh_world).
Proof.
  apply (ease_factor_never_below_1_3 _ fresh_world).
  exact fresh_world_ease_invariant.
Defined.

(** C4, as the specification has it, fails: a call with quality -1 on the
    first run returns, writes an entry for the term and creates the
    file. *)
Lemma schedule_next_accepts_quality_minus_1 :
  outcome (schedule_next "Y" (-1) clock_2024 fresh_world) = inr tt /\
  scheduler fresh_world !! "Y"%string = None /\
  scheduler (after (schedule_next "Y" (-1) clock_2024 fresh_world))
    !! "Y"%string
  = Some {| e_interval := 1;
            e_repetitions := 0;
            e_ef := PyFloat.lit_2_5;
            e_next_due := Some "2024-03-02T09:30:00.250000"%string |} /\
  disk fresh_world = None /\
  disk (after (schedule_next "Y" (-1) clock_2024 fresh_world)) <> None.
Proof. vm_compute. repeat split; discriminate. Qed.

Lemma schedule_next_quality_unchecked_witness :
  (-1 < 0 /\
   schedule_next "Y" (-1) clock_2024 reviewed_world
   = schedule_next "Y" 0 clock_2024 reviewed_world /\
   commits reviewed_world "Y"
     {| e_interval := 1;
        e_repetitions := 0;
        e_ef := e_ef (prior_entry reviewed_world "Y");
        e_next_due := Some "2024-03-02T09:30:00.250000"%string |}
     (schedule_next "Y" (-1) clock_2024 reviewed_world)) /\
  (5 < 7 /\
   0 <= e_interval (prior_entry reviewed_world "Y") /\
   commits reviewed_world "Y"
     {| e_interval := 6;
        e_repetitions := 2;
        e_ef := spec_ease (e_ef (prior_entry reviewed_world "Y")) 7;
        e_next_due := Some "2024-03-07T09:30:00.250000"%string |}
     (schedule_next "Y" 7 clock_2024 reviewed_world)) /\
  schedule_next "Y" (5 + 2 ^ 1024) clock_2024 reviewed_world
  = (inl OverflowError, reviewed_world).
Proof.
  split; [|split].
  - split; [lia|].
    exact (proj1 (schedule_next_quality_unchecked
                    reviewed_world "Y" (-1) clock_2024) ltac:(lia)).
  - split; [lia|]. split; [vm_compute; discriminate|].
    exact (proj2 (schedule_next_quality_unchecked
                    reviewed_world "Y" 7 clock_2024)
             ltac:(lia) ltac:(vm_compute; discriminate)).
  - exact (proj2 (schedule_next_quality_unchecked
                    reviewed_world "Y" (5 + 2 ^ 1024) clock_2024)
             ltac:(lia) ltac:(vm_compute; discriminate)).
Defined.

Lemma progress_frame_witness :
  coherent studied_world /\
  known_terms studied_world = {[ "X"%string ]} /\
  (exists ex ey,
      scheduler studied_world !! "X"%string = Some ex /\
      scheduler studied_world !! "Y"%string = Some ey) /\
  (let r := mark_known "Y" studied_world in
   scheduler (after r) = scheduler studied_world /\
   pd_scheduler (progress_data (after r))
   = pd_scheduler (progress_data studied_world) /\
   disk (after r) = Some (fst (json_dump (progress_data (after r))))) /\
  (let r := mark_unknown "X" studied_world in
   scheduler (after r) = scheduler studied_world /\
   pd_scheduler (progress_data (after r))
   = pd_scheduler (progress_data studied_world) /\
   disk (after r) = Some (fst (json_dump (progress_data (after r))))) /\
  (let r := schedule_next "Y" 2 clock_2024 studied_world in
   known_terms (after r) = known_terms studied_world /\
   pd_known_terms (progress_data (after r)) = Some ["X"%string] /\
   scheduler (after r) !! "X"%string = scheduler studied_world !! "X"%string /\
   default ∅ (pd_scheduler (progress_data (after r))) !! "X"%string
   = default ∅ (pd_scheduler (progress_data studied_world)) !! "X"%string /\
   scheduler (after r) !! "Y"%string <> scheduler studied_world !! "Y"%string /\
   disk (after r) = Some (fst (json_dump (progress_data (after r))))).
Proof.
  assert (Hc : coherent studied_world) by (vm_compute; reflexivity).
  pose proof (progress_frame studied_world "Y" "Y" 2 clock_2024 Hc)
    as ((K1 & K2 & _ & K3) & _ & _).
  pose proof (progress_frame studied_world "X" "Y" 2 clock_2024 Hc)
    as (_ & (U1 & U2 & _ & U3) & (S1 & S2 & S3 & S4)).
  destruct (S3 "X"%string ltac:(discriminate)) as [S5 S6].
  assert (Hdw : disk_writable studied_world = true)
    by (vm_compute; reflexivity).
  unfold saved in K3, U3, S4. rewrite Hdw in K3, U3, S4.
  split; [exact Hc|]. split; [vm_compute; reflexivity|].
  split; [do 2 eexists; split; vm_compute; reflexivity|].
  split; [|split]; cbv zeta.
  - exact (conj K1 (conj K2 (proj1 K3))).
  - exact (conj U1 (conj U2 (proj1 U3))).
  - assert (Hy : scheduler
                   (after (schedule_next "Y" 2 clock_2024 studied_world))
                   !! "Y"%string
                 <> scheduler studied_world !! "Y"%string)
      by (vm_compute; discriminate).
    refine (conj S1 (conj _ (conj S5 (conj S6 (conj Hy _))))).
    + rewrite S2. vm_compute. reflexivity.
    + destruct S4 as [S4|S4]; [|exact (proj1 S4)].
      exfalso. apply Hy. rewrite S4. reflexivity.
Defined.

Lemma load_progress_absent_or_stored_witness :
  load_progress fresh_world = (inr empty_progress, fresh_world) /\
  load_progress reviewed_world
  = (inr (progress_data reviewed_world), reviewed_world).
Proof.
  split.
  - exact (proj1 (load_progress_absent_or_stored fresh_world) eq_refl).
  - apply (proj2 (load_progress_absent_or_stored reviewed_world)
             (progress_data reviewed_world)).
    vm_compute. reflexivity.
Defined.



Lemma term_without_entry_is_due_witness :
  scheduler reviewed_world !! term federalism = None /\
  In federalism
    (filtered_terms small_catalog ["econ"%string] (Week 3) true
       (scheduler reviewed_world) "2024-03-01T09:30:01"%string).
Proof.
  assert (H : scheduler reviewed_world !! term federalism = None)
    by (vm_compute; reflexivity).
  split; [exact H|].
  refine (proj1 (term_without_entry_is_due small_catalog ["econ"%string]
                   (Week 3) (scheduler reviewed_world)
                   "2024-03-01T09:30:01" federalism H) _).
  vm_compute. auto.
Defined.

Lemma score_identity_and_normalization_witness :
  Z.of_nat (String.length (definition externality)) < 2 ^ 1022 /\
  score (definition externality) (definition externality)
  = inr PyFloat.lit_1_0 /\
  score "  A COST or Benefit " "a cost or benefit borne by a third party"
  = score "a cost or benefit" "a cost or benefit borne by a third party".
Proof.
  assert (H : Z.of_nat (String.length (definition externality)) < 2 ^ 1022)
    by (vm_compute; reflexivity).
  split; [exact H|]. split.
  - exact (proj1 score_identity_and_normalization (definition externality) H).
  - apply (proj1 (proj2 score_identity_and_normalization));
      vm_compute; reflexivity.
Defined.

(** ** The scenarios of the specification, run *)

(** Four perfect reviews of a fresh term: the intervals are 1, 6, 16 and 46
    days. *)
Example four_perfect_reviews :
  map (fun n =>
         e_interval
           (prior_entry
              (run_calls (repeat (Call "X" 5 clock_2024) n) fresh_world) "X"))
      [1; 2; 3; 4]%nat
  = [1; 6; 16; 46].
Proof. vm_compute. reflexivity. Qed.

(** The interval grows until the due date leaves the range of [datetime]:
    the fourteenth perfect review in a row raises OverflowError and stores
    nothing. *)
Example fourteenth_perfect_review_raises :
  let w := run_calls (repeat (Call "X" 5 clock_2024) 13) fresh_world in
  e_interval (prior_entry w "X") = 2714533 /\
  schedule_next "X" 5 clock_2024 w = (inl OverflowError, w).
Proof. vm_compute. split; reflexivity. Qed.

(** An answer that the quiz rates as partially correct: 19 matching
    characters out of 22 and 40, between the thresholds 0.4 and 0.8 of
    lines 454-456. *)
Example score_of_a_partial_answer :
  score "a cost borne by others" (definition externality)
  = inr (float_of 38 / float_of 62)%F /\
  PyFloat.leb PyFloat.lit_0_4 (float_of 38 / float_of 62)%F = true /\
  PyFloat.ltb (float_of 38 / float_of 62)%F PyFloat.lit_0_8 = true.
Proof. vm_compute. repeat split. Qed.
